(** * Cardistry game server: a shallow embedding of [gameServer.ts]

    The server keeps one [GameState] per session in a process-wide map and
    mutates it from socket handlers.  Each handler is a chain of guards
    (early [return]s) followed by a block of assignments; here a handler is
    a function to [option GameState], where [None] is an early return: no
    assignment was executed and nothing was broadcast.  The registry layer
    (the [on_...] functions over a [gmap] from session identifiers) writes
    the new session state back under its key.  The broadcasts themselves
    ([visibleState], [pushHandsToPlayers]) read the state and do not change
    it; they are not part of the embedding.

    Sources of nondeterminism are parameters: [Math.random] (the shuffle),
    [uuid] (fresh identifiers) and [Date.now] (the clock).

    Names follow the source.  The two [id] fields are [pid] (player) and
    [gid] (session), and the message field [by] is [by_]. *)

From Stdlib Require Import ZArith Lia.
From stdpp Require Import base option list strings gmap numbers.

Open Scope string_scope.
Open Scope nat_scope.
Open Scope list_scope.

(** ** Cards *)

Inductive CardRank :=
  | RA | R2 | R3 | R4 | R5 | R6 | R7 | R8 | R9 | R10 | RJ | RQ | RK.

Inductive CardSuit := SS | SH | SD | SC.

(** [Card] is the template-literal type [`${CardRank}${CardSuit}`]: a rank
    and a suit, rendered as a string by [card_str]. *)
Record Card := mkCard { rank : CardRank; suit : CardSuit }.

#[global] Instance CardRank_eq_dec : EqDecision CardRank.
Proof. solve_decision. Defined.

#[global] Instance CardSuit_eq_dec : EqDecision CardSuit.
Proof. solve_decision. Defined.

#[global] Instance Card_eq_dec : EqDecision Card.
Proof. solve_decision. Defined.

Definition rank_str (r : CardRank) : string :=
  match r with
  | RA => "A" | R2 => "2" | R3 => "3" | R4 => "4" | R5 => "5" | R6 => "6"
  | R7 => "7" | R8 => "8" | R9 => "9" | R10 => "10" | RJ => "J" | RQ => "Q"
  | RK => "K"
  end.

Definition suit_str (s : CardSuit) : string :=
  match s with SS => "S" | SH => "H" | SD => "D" | SC => "C" end.

Definition card_str (c : Card) : string := rank_str (rank c) +:+ suit_str (suit c).

(** [s.startsWith(p)] *)
Fixpoint startsWith (s p : string) : bool :=
  match p, s with
  | EmptyString, _ => true
  | String a p', String b s' => if decide (a = b) then startsWith s' p' else false
  | String _ _, EmptyString => false
  end.

Definition ranks : list CardRank :=
  [RA; R2; R3; R4; R5; R6; R7; R8; R9; R10; RJ; RQ; RK].

Definition suits : list CardSuit := [SS; SH; SD; SC].

Definition ranksInOrder : list CardRank := ranks.

(** ** JavaScript array primitives used by the server *)

Section js_arrays.
Context {A : Type}.

(** [l.findIndex(f)]: the first index whose element satisfies [f], or -1. *)
Definition findIndex (P : A → Prop) `{∀ x, Decision (P x)} (l : list A) : Z :=
  match list_find P l with
  | Some (i, _) => Z.of_nat i
  | None => (-1)%Z
  end.

(** [l.find(f)], together with the position found, so that a write through
    the returned reference can be replayed on the array. *)
Definition find (P : A → Prop) `{∀ x, Decision (P x)} (l : list A) : option (nat * A) :=
  list_find P l.

(** [l.indexOf(x)] with strict equality. *)
Definition indexOf `{EqDecision A} (x : A) (l : list A) : Z :=
  findIndex (λ y, y = x) l.

(** [l.splice(idx, 1)]: a negative [idx] counts from the end (clamped at
    0), an [idx] past the end removes nothing. *)
Definition splice1 (idx : Z) (l : list A) : list A :=
  let len := Z.of_nat (length l) in
  let start := if (idx <? 0)%Z then Z.max (len + idx) 0 else Z.min idx len in
  delete (Z.to_nat start) l.

(** [l.slice(-n)]: the last [n] elements; [-0] is [0], so [n = 0] copies
    the whole array. *)
Definition slice_neg (n : nat) (l : list A) : list A :=
  if decide (n = 0) then l else drop (length l - n) l.

(** [[l[i], l[j]] = [l[j], l[i]]] *)
Definition swap (i j : nat) (l : list A) : list A :=
  match l !! i, l !! j with
  | Some x, Some y => <[j := x]> (<[i := y]> l)
  | _, _ => l
  end.
End js_arrays.

(** ** Deck construction *)

(** The two inner loops of [createDeck]: every rank with every suit. *)
Definition oneDeck : list Card :=
  r ← ranks; s ← suits; [mkCard r s].

Fixpoint orderedDeck (numDecks : nat) : list Card :=
  match numDecks with
  | 0 => []
  | S d => oneDeck ++ orderedDeck d
  end.

(** The shuffle loop [for (i = deck.length - 1; i > 0; i--)].  [rand i] is
    the draw made at loop index [i]; [Math.floor(Math.random() * (i + 1))]
    lies in [0, i], which the reduction modulo [i + 1] imposes on an
    arbitrary [rand]. *)
Fixpoint shuffle_from (rand : nat → nat) (i : nat) (deck : list Card) : list Card :=
  match i with
  | 0 => deck
  | S i' => shuffle_from rand i' (swap i (rand i mod (S i)) deck)
  end.

Definition createDeck (rand : nat → nat) (numDecks : nat) : list Card :=
  let deck := orderedDeck numDecks in
  shuffle_from rand (length deck - 1) deck.

(** [ceilDiv]: [Math.floor((a + b - 1) / b)].  The sum, the quotient of
    doubles and its floor are exact while [a + b ≤ 2^53]; the server calls
    it with the length of the player list and 5. *)
Definition ceilDiv (a b : nat) : nat := (a + b - 1) / b.

(** ** Session state *)

Record PlayerState := mkPlayer {
  pid : string;          (* id *)
  name : string;
  socketId : string;
  hand : list Card;
  isHost : bool
}.

Record PlayRecord := mkPlay {
  username : string;
  count : nat;
  claimedRank : CardRank
}.

Record GameState := mkGame {
  gid : string;          (* id *)
  players : list PlayerState;
  hostId : string;
  started : bool;
  currentTurnIndex : nat;
  currentRequiredRank : CardRank;
  pileFaceDown : list Card;
  lastPlay : option PlayRecord;
  bsWindowUntil : option Z;
  peanutButterEligiblePlayerId : option string;
  hasNextPlayerPlayedAfterLiar : option bool
}.

Definition set_hand (h : list Card) (p : PlayerState) : PlayerState :=
  mkPlayer (pid p) (name p) (socketId p) h (isHost p).

Definition set_isHost (b : bool) (p : PlayerState) : PlayerState :=
  mkPlayer (pid p) (name p) (socketId p) (hand p) b.

(** [p.hand.push(...cs)] *)
Definition push_hand (cs : list Card) (p : PlayerState) : PlayerState :=
  set_hand (hand p ++ cs) p.

Definition nextRank (r : CardRank) : CardRank :=
  let idx := indexOf r ranksInOrder in
  default RA (ranksInOrder !! Z.to_nat ((idx + 1) `rem` Z.of_nat (length ranksInOrder))).

Definition numDecksFor (ps : list PlayerState) : nat :=
  Nat.max 1 (ceilDiv (length ps) 5).

(** The [while (deck.length > 0)] loop of [dealHands].  [deck.pop()] takes
    the last element, so the loop walks the deck back to front; [rdeck] is
    the deck reversed and [i] the loop counter. *)
Fixpoint deal_loop (startIndex i : nat) (rdeck : list Card)
    (ps : list PlayerState) : list PlayerState :=
  match rdeck with
  | [] => ps
  | c :: rest =>
      deal_loop startIndex (S i) rest
        (alter (push_hand [c]) ((startIndex + i) mod length ps) ps)
  end.

Definition dealHands (rand : nat → nat) (ps : list PlayerState) (dealerId : string)
    : list PlayerState :=
  let numDecks := numDecksFor ps in
  let deck := createDeck rand numDecks in
  let dealerIndex := Z.to_nat (Z.max 0 (findIndex (λ p, pid p = dealerId) ps)) in
  let startIndex := (dealerIndex + 1) mod length ps in
  deal_loop startIndex 0 (reverse deck) ps.

Definition getMaxSelectable (ps : list PlayerState) : nat :=
  numDecksFor ps * 4.

(** ** JavaScript truthiness of the optional fields *)

(** A string-valued optional field is truthy when set and not empty. *)
Definition truthy_str (o : option string) : Prop :=
  match o with Some s => s ≠ "" | None => False end.

(** A number-valued optional field is truthy when set and not zero. *)
Definition truthy_num (o : option Z) : Prop :=
  match o with Some t => t ≠ 0%Z | None => False end.

#[global] Instance truthy_str_dec o : Decision (truthy_str o).
Proof. destruct o; simpl; apply _. Defined.

#[global] Instance truthy_num_dec o : Decision (truthy_num o).
Proof. destruct o; simpl; apply _. Defined.

(** ** Handlers, one session at a time *)

(** [session:create]; the two [uuid()] results are [sessionId] and [playerId]. *)
Definition session_create (sessionId playerId uname socket : string) : GameState :=
  let player := mkPlayer playerId uname socket [] true in
  mkGame sessionId [player] (pid player) false 0 RA [] None None None None.

(** [session:join] *)
Definition session_join (g : GameState) (playerId uname socket : string)
    : option GameState :=
  guard (started g = false);;
  guard (length (players g) < 10);;
  let player := mkPlayer playerId uname socket [] false in
  Some (mkGame (gid g) (players g ++ [player]) (hostId g) (started g)
          (currentTurnIndex g) (currentRequiredRank g) (pileFaceDown g)
          (lastPlay g) (bsWindowUntil g) (peanutButterEligiblePlayerId g)
          (hasNextPlayerPlayedAfterLiar g)).

(** [session:kick] *)
Definition session_kick (g : GameState) (playerId by_ : string) : option GameState :=
  guard (hostId g = by_);;
  guard (started g = false);;
  Some (mkGame (gid g) (filter (λ p, pid p ≠ playerId) (players g)) (hostId g)
          (started g) (currentTurnIndex g) (currentRequiredRank g)
          (pileFaceDown g) (lastPlay g) (bsWindowUntil g)
          (peanutButterEligiblePlayerId g) (hasNextPlayerPlayedAfterLiar g)).

(** [game:start] *)
Definition game_start (rand : nat → nat) (g : GameState) (by_ : string)
    : option GameState :=
  guard (started g = false);;
  guard (2 ≤ length (players g));;
  guard (hostId g = by_);;
  let ps := dealHands rand (set_hand [] <$> players g) (hostId g) in
  let dealerIndex := findIndex (λ p, pid p = hostId g) ps in
  Some (mkGame (gid g) ps (hostId g) true
          (Z.to_nat ((dealerIndex + 1) `rem` Z.of_nat (length ps)))
          RA [] None None None (Some false)).

(** The second loop of [game:play]: each submitted card is looked up again
    with [indexOf], [splice]d out of the hand at whatever index came back,
    and pushed on the pile. *)
Fixpoint remove_cards (cards h pile : list Card) : list Card * list Card :=
  match cards with
  | [] => (h, pile)
  | c :: cs => remove_cards cs (splice1 (indexOf c h) h) (pile ++ [c])
  end.

(** [game:play] *)
Definition game_play (g : GameState) (by_ : string) (cards : list Card)
    (claimed : CardRank) (now : Z) : option GameState :=
  guard (started g = true);;
  current ← players g !! currentTurnIndex g;
  guard (pid current = by_);;
  '(k, player) ← find (λ p, pid p = by_) (players g);
  let maxSelectable := getMaxSelectable (players g) in
  guard (1 ≤ length cards ∧ length cards ≤ maxSelectable);;
  guard (Forall (λ c, indexOf c (hand player) ≠ (-1)%Z) cards);;
  let hp := remove_cards cards (hand player) (pileFaceDown g) in
  let ps := <[k := set_hand hp.1 player]> (players g) in
  let elig := peanutButterEligiblePlayerId g in
  Some (mkGame (gid g) ps (hostId g) (started g)
          ((currentTurnIndex g + 1) mod length ps)
          (nextRank (currentRequiredRank g))
          hp.2
          (Some (mkPlay (name player) (length cards) claimed))
          (Some (now + 5000)%Z)
          (Some (pid player))
          (Some (bool_decide (truthy_str elig ∧ elig ≠ Some (pid player))))).

(** The verdict of [game:bs]: some card among the last [count] of the pile
    does not start with the claimed rank. *)
Definition liar (lp : PlayRecord) (pile : list Card) : bool :=
  existsb (λ c, negb (startsWith (card_str c) (rank_str (claimedRank lp))))
    (slice_neg (count lp) pile).

(** [game:bs] *)
Definition game_bs (g : GameState) (by_ : string) (now : Z) : option GameState :=
  guard (started g = true);;
  lp ← lastPlay g;
  guard (truthy_num (bsWindowUntil g));;
  deadline ← bsWindowUntil g;
  guard (¬ (now > deadline)%Z);;
  '(i, lastPlayer) ← find (λ p, name p = username lp) (players g);
  let verdict := liar lp (pileFaceDown g) in
  '(j, caller) ← find (λ p, pid p = by_) (players g);
  let loser := if verdict then i else j in
  Some (mkGame (gid g) (alter (push_hand (pileFaceDown g)) loser (players g))
          (hostId g) (started g) (currentTurnIndex g) (currentRequiredRank g)
          [] None None None (Some false)).

(** [game:peanutButter] *)
Definition game_peanutButter (g : GameState) (by_ : string) : option GameState :=
  guard (started g = true);;
  guard (truthy_str (peanutButterEligiblePlayerId g));;
  guard (hasNextPlayerPlayedAfterLiar g = Some true);;
  guard (peanutButterEligiblePlayerId g = Some by_);;
  lp ← lastPlay g;
  '(i, lastPlayer) ← find (λ p, name p = username lp) (players g);
  Some (mkGame (gid g) (alter (push_hand (pileFaceDown g)) i (players g))
          (hostId g) (started g) (currentTurnIndex g) (currentRequiredRank g)
          [] None (bsWindowUntil g) None (Some false)).

(** The body of the [disconnect] loop for one session; [None] when no
    player of the session is bound to the socket. *)
Definition disconnect_game (g : GameState) (socket : string) : option GameState :=
  '(idx, leaver) ← find (λ p, socketId p = socket) (players g);
  let wasHost := bool_decide (pid leaver = hostId g) in
  let ps := delete idx (players g) in
  match ps with
  | p0 :: rest =>
      if wasHost then
        Some (mkGame (gid g) (set_isHost true p0 :: rest) (pid p0) (started g)
                (currentTurnIndex g) (currentRequiredRank g) (pileFaceDown g)
                (lastPlay g) (bsWindowUntil g) (peanutButterEligiblePlayerId g)
                (hasNextPlayerPlayedAfterLiar g))
      else
        Some (mkGame (gid g) ps (hostId g) (started g)
                (currentTurnIndex g) (currentRequiredRank g) (pileFaceDown g)
                (lastPlay g) (bsWindowUntil g) (peanutButterEligiblePlayerId g)
                (hasNextPlayerPlayedAfterLiar g))
  | [] =>
      Some (mkGame (gid g) ps (hostId g) (started g)
              (currentTurnIndex g) (currentRequiredRank g) (pileFaceDown g)
              (lastPlay g) (bsWindowUntil g) (peanutButterEligiblePlayerId g)
              (hasNextPlayerPlayedAfterLiar g))
  end.

(** ** The registry [games] and the socket handlers *)

(** An early return leaves the registry as it was. *)
Definition commit (games : gmap string GameState) (sessionId : string)
    (r : option GameState) : gmap string GameState :=
  match r with
  | Some g => <[sessionId := g]> games
  | None => games
  end.

Definition on_session_create (games : gmap string GameState)
    (sessionId playerId uname socket : string) : gmap string GameState :=
  <[sessionId := session_create sessionId playerId uname socket]> games.

Definition on_session_join (games : gmap string GameState)
    (sessionId playerId uname socket : string) : gmap string GameState :=
  commit games sessionId (g ← games !! sessionId; session_join g playerId uname socket).

Definition on_session_kick (games : gmap string GameState)
    (sessionId playerId by_ : string) : gmap string GameState :=
  commit games sessionId (g ← games !! sessionId; session_kick g playerId by_).

Definition on_game_start (rand : nat → nat) (games : gmap string GameState)
    (sessionId by_ : string) : gmap string GameState :=
  commit games sessionId (g ← games !! sessionId; game_start rand g by_).

Definition on_game_play (games : gmap string GameState) (sessionId by_ : string)
    (cards : list Card) (claimed : CardRank) (now : Z) : gmap string GameState :=
  commit games sessionId (g ← games !! sessionId; game_play g by_ cards claimed now).

Definition on_game_bs (games : gmap string GameState) (sessionId by_ : string)
    (now : Z) : gmap string GameState :=
  commit games sessionId (g ← games !! sessionId; game_bs g by_ now).

Definition on_game_peanutButter (games : gmap string GameState)
    (sessionId by_ : string) : gmap string GameState :=
  commit games sessionId (g ← games !! sessionId; game_peanutButter g by_).

Definition on_disconnect (games : gmap string GameState) (socket : string)
    : gmap string GameState :=
  (λ g, default g (disconnect_game g socket)) <$> games.

(** ** Notions used to state the properties *)

(** Number of copies of a card in a list. *)
Definition occurrences (c : Card) (l : list Card) : nat :=
  count_occ Card_eq_dec l c.

(** All the cards held by the players, and the number of cards in play. *)
Definition handCards (ps : list PlayerState) : list Card :=
  p ← ps; hand p.

Definition handTotal (ps : list PlayerState) : nat :=
  sum_list_with (λ p, length (hand p)) ps.

Definition totalCards (g : GameState) : nat :=
  handTotal (players g) + length (pileFaceDown g).

(** The cards of [rdeck] that a deal in turn among [n] players, begun at
    [startIndex] with counter [i], gives to the player at index [p]. *)
Fixpoint dealt_to (n startIndex p i : nat) (rdeck : list Card) : list Card :=
  match rdeck with
  | [] => []
  | c :: rest =>
      if decide ((startIndex + i) mod n = p)
      then c :: dealt_to n startIndex p (S i) rest
      else dealt_to n startIndex p (S i) rest
  end.

(** The events of a running game, as the socket dispatches them to one
    session. *)
Inductive GameEvent :=
  | EvStart (rand : nat → nat) (by_ : string)
  | EvPlay (by_ : string) (cards : list Card) (claimed : CardRank) (now : Z)
  | EvBs (by_ : string) (now : Z)
  | EvPeanutButter (by_ : string)
  | EvDisconnect (socket : string).

Definition handle (g : GameState) (e : GameEvent) : option GameState :=
  match e with
  | EvStart rand by_ => game_start rand g by_
  | EvPlay by_ cards claimed now => game_play g by_ cards claimed now
  | EvBs by_ now => game_bs g by_ now
  | EvPeanutButter by_ => game_peanutButter g by_
  | EvDisconnect socket => disconnect_game g socket
  end.

(** A play is covered when the submitted cards, counted with repetition,
    are among the cards of the submitting player's hand. *)
Definition covered (g : GameState) (e : GameEvent) : Prop :=
  match e with
  | EvPlay by_ cards _ _ =>
      ∀ k player, find (λ p, pid p = by_) (players g) = Some (k, player) →
                  cards ⊆+ hand player
  | _ => True
  end.

(** What can happen to a session in the lobby after its creation; a join
    receives an identifier from [uuid()] that is not yet in use. *)
Inductive lobby_step (g g' : GameState) : Prop :=
  | lobby_join playerId uname socket :
      playerId ≠ hostId g →
      session_join g playerId uname socket = Some g' →
      lobby_step g g'
  | lobby_kick playerId by_ :
      session_kick g playerId by_ = Some g' →
      lobby_step g g'
  | lobby_disconnect socket :
      disconnect_game g socket = Some g' →
      lobby_step g g'.

(** A session whose [hostId] is borne by none of its players. *)
Definition hostless (h : string) (g : GameState) : Prop :=
  hostId g = h ∧ ∀ p, p ∈ players g → pid p ≠ h.

(** ** Concrete sessions *)

(** A shuffle in which every draw is 0. *)
Definition zeros (_ : nat) : nat := 0.

Definition AS : Card := mkCard RA SS.
Definition AD : Card := mkCard RA SD.
Definition KC : Card := mkCard RK SC.
Definition KH : Card := mkCard RK SH.

(** Bob creates a session, Alice joins, Bob starts: Alice is to play. *)
Definition lobby1 : GameState := session_create "s1" "pB" "Bob" "kB".

Definition lobby2 : GameState :=
  default lobby1 (session_join lobby1 "pA" "Alice" "kA").

Definition started2 : GameState :=
  default lobby2 (game_start zeros lobby2 "pB").

(** Alice plays the ace of spades as a five, then Bob plays the king of
    clubs as a six. *)
Definition afterP1 : GameState :=
  default started2 (game_play started2 "pA" [AS] R5 1000).

Definition afterP2 : GameState :=
  default afterP1 (game_play afterP1 "pB" [KC] R6 9000).

(** Two players called Sam and one called Carol; the first Sam is host, so
    the second Sam is to play. *)
Definition lobby3 : GameState :=
  let g1 := session_create "s3" "p1" "Sam" "k1" in
  let g2 := default g1 (session_join g1 "p2" "Sam" "k2") in
  default g2 (session_join g2 "p3" "Carol" "k3").

Definition started3 : GameState :=
  default lobby3 (game_start zeros lobby3 "p1").

(** The second Sam plays the ace of spades as a five. *)
Definition afterSam : GameState :=
  default started3 (game_play started3 "p2" [AS] R5 1000).

(** The second Sam leaves right after that play. *)
Definition samLeft : GameState :=
  default afterSam (disconnect_game afterSam "k2").

(** Then Carol and the first Sam play a king each, and the second Sam
    plays again. *)
Definition afterThree : GameState :=
  let g2 := default afterSam (game_play afterSam "p3" [KC] R6 9000) in
  default g2 (game_play g2 "p1" [mkCard RK SD] R7 17000).

Definition afterFour : GameState :=
  default afterThree (game_play afterThree "p2" [KH] R8 25000).

(** ** The public projection and the private hands *)

Record VisiblePlayer := mkVisiblePlayer {
  v_id : string;
  v_name : string;
  v_isHost : bool;
  cardsLeft : nat
}.

Record VisibleState := mkVisibleState {
  v_gid : string;
  v_players : list VisiblePlayer;
  v_started : bool;
  currentTurnPlayerId : option string;
  v_currentRequiredRank : CardRank;
  v_lastPlay : option PlayRecord;
  pileCount : nat;
  v_bsWindowUntil : option Z
}.

(** [visibleState]; [g.players[g.currentTurnIndex]?.id] is [undefined] when
    the index is out of range, and [g.bsWindowUntil ?? null] maps an unset
    deadline to [null]: both are [None] here. *)
Definition visibleState (g : GameState) : VisibleState :=
  mkVisibleState (gid g)
    ((λ p, mkVisiblePlayer (pid p) (name p) (isHost p) (length (hand p)))
       <$> players g)
    (started g)
    (pid <$> players g !! currentTurnIndex g)
    (currentRequiredRank g)
    (lastPlay g)
    (length (pileFaceDown g))
    (bsWindowUntil g).

(** [pushHandsToPlayers]: one [player:hand] message per player, addressed
    to the player's socket and carrying the player's identifier and hand. *)
Definition pushHandsToPlayers (g : GameState)
    : list (string * (string * list Card)) :=
  (λ p, (socketId p, (pid p, hand p))) <$> players g.

(** ** Runs of a session *)

(** What identifies a player apart from the hand. *)
Definition ident (p : PlayerState) : string * string * string * bool :=
  (pid p, name p, socketId p, isHost p).

(** One accepted event of a session.  The identifier a join receives from
    [uuid()] is new: no player bears it and it is not the host's. *)
Inductive session_step (g g' : GameState) : Prop :=
  | step_join playerId uname socket :
      playerId ∉ pid <$> players g →
      playerId ≠ hostId g →
      session_join g playerId uname socket = Some g' →
      session_step g g'
  | step_kick playerId by_ :
      session_kick g playerId by_ = Some g' →
      session_step g g'
  | step_event e :
      handle g e = Some g' →
      session_step g g'.

(** The sessions that exist: created by [session:create] and changed by
    accepted events since. *)
Definition reachable (g : GameState) : Prop :=
  ∃ sessionId playerId uname socket,
    rtc session_step (session_create sessionId playerId uname socket) g.

(** A run of accepted events. *)
Fixpoint run (g : GameState) (es : list GameEvent) : option GameState :=
  match es with
  | [] => Some g
  | e :: es' => g' ← handle g e; run g' es'
  end.

Definition is_play (e : GameEvent) : bool :=
  match e with EvPlay _ _ _ _ => true | _ => false end.

(** The events of a round: plays, challenges and counter-challenges. *)
Definition in_round (e : GameEvent) : Prop :=
  match e with
  | EvPlay _ _ _ _ | EvBs _ _ | EvPeanutButter _ => True
  | _ => False
  end.

(** What every session that exists satisfies. *)
Record session_inv (g : GameState) : Prop := mk_session_inv {
  inv_cap : length (players g) ≤ 10;
  inv_ids : NoDup (pid <$> players g);
  inv_host : ∀ p, p ∈ players g → isHost p = true ↔ pid p = hostId g;
  inv_count : ∀ lp, lastPlay g = Some lp →
                1 ≤ count lp ∧ count lp ≤ length (pileFaceDown g);
  inv_actor : ∀ lp, lastPlay g = Some lp →
                ∃ e, peanutButterEligiblePlayerId g = Some e ∧
                     ∀ p, p ∈ players g → pid p = e → name p = username lp;
  inv_settled : lastPlay g = None →
                peanutButterEligiblePlayerId g = None ∧
                hasNextPlayerPlayedAfterLiar g ≠ Some true;
  inv_lobby : started g = false →
              Forall (λ p, hand p = []) (players g) ∧
              pileFaceDown g = [] ∧ lastPlay g = None ∧
              bsWindowUntil g = None
}.

(** ** The client's card selection *)

(** The play limit the client computes,
    [Math.ceil(state.players.length / 5) * 4 || 4]: the ceiling of the
    quotient times four, and 4 when that is zero. *)
Definition clientMaxSelectable (playerCount : nat) : nat :=
  let decks :=
    if decide (playerCount mod 5 = 0) then playerCount / 5
    else playerCount / 5 + 1 in
  if decide (decks * 4 = 0) then 4 else decks * 4.

(** The update of the selection when a card of the hand is clicked:
    [prev.includes(c) ? prev.filter(x => x !== c)
       : (prev.length < maxSelectable ? [...prev, c] : prev)]. *)
Definition onToggle {A} `{EqDecision A} (maxSelectable : nat)
    (prev : list A) (c : A) : list A :=
  if decide (c ∈ prev) then filter (λ x, x ≠ c) prev
  else if decide (length prev < maxSelectable) then prev ++ [c]
  else prev.

(** * Properties *)

(** ** Arithmetic of dealing in turn *)

Section round_robin_arith.
Variable n : nat.
Hypothesis n_pos : 0 < n.

Lemma mod_add_cancel (s a b : nat) :
  a < n → b < n → (s + a) mod n = (s + b) mod n → a = b.
Proof.
  intros Ha Hb Heq.
  pose proof (Nat.div_mod_eq (s + a) n) as E1.
  pose proof (Nat.div_mod_eq (s + b) n) as E2.
  rewrite Heq in E1.
  assert ((s + a) / n = (s + b) / n) by nia.
  nia.
Qed.

Lemma mod_add_mod (s t : nat) : (s + t) mod n = (s + t mod n) mod n.
Proof. rewrite Nat.Div0.add_mod_idemp_r; done. Qed.

Lemma succ_div_mod (t : nat) :
  (t mod n + 1 < n ∧ S t / n = t / n ∧ S t mod n = t mod n + 1) ∨
  (t mod n + 1 = n ∧ S t / n = t / n + 1 ∧ S t mod n = 0).
Proof.
  pose proof (Nat.div_mod_eq t n) as E.
  pose proof (Nat.mod_upper_bound t n ltac:(lia)) as B.
  destruct (decide (t mod n + 1 = n)) as [Hw|Hw]; [right|left].
  - assert (S t = (t / n + 1) * n + 0) as Hs by nia.
    split; [done|]. split.
    + symmetry. apply (Nat.div_unique (S t) n (t / n + 1) 0); lia.
    + symmetry. apply (Nat.mod_unique (S t) n (t / n + 1) 0); lia.
  - assert (S t = n * (t / n) + (t mod n + 1)) as Hs by lia.
    split; [lia|]. split.
    + symmetry. apply (Nat.div_unique (S t) n (t / n) (t mod n + 1)); lia.
    + symmetry. apply (Nat.mod_unique (S t) n (t / n) (t mod n + 1)); lia.
Qed.
End round_robin_arith.

(** ** Dealing *)

Lemma dealt_to_app n s p i l1 l2 :
  dealt_to n s p i (l1 ++ l2) =
  dealt_to n s p i l1 ++ dealt_to n s p (i + length l1) l2.
Proof.
  revert i. induction l1 as [|c l1 IH]; intros i; simpl.
  - by rewrite Nat.add_0_r.
  - rewrite IH. replace (S i + length l1) with (i + S (length l1)) by lia.
    by case_decide.
Qed.

(** After [t] cards, the player [k] seats after the first recipient holds
    [t / n] cards, and one more when [k < t mod n]. *)
Lemma dealt_to_length n s k (rdeck : list Card) :
  0 < n → k < n →
  length (dealt_to n s ((s + k) mod n) 0 rdeck) =
  length rdeck / n + (if decide (k < length rdeck mod n) then 1 else 0).
Proof.
  intros Hn Hk. induction rdeck as [|c l IH] using rev_ind.
  - simpl. rewrite Nat.Div0.div_0_l, Nat.Div0.mod_0_l. by case_decide; lia.
  - rewrite dealt_to_app, !length_app, IH. simpl.
    replace (length l + 1) with (S (length l)) by lia.
    pose proof (Nat.mod_upper_bound (length l) n ltac:(lia)) as Hb.
    destruct (succ_div_mod n Hn (length l)) as [(?&->&->)|(?&->&->)];
      destruct (decide ((s + length l) mod n = (s + k) mod n)) as [Hd|Hd]; simpl.
    + rewrite mod_add_mod in Hd. apply mod_add_cancel in Hd; [|lia..].
      repeat case_decide; simpl; lia.
    + assert (length l mod n ≠ k) by (intros <-; apply Hd; by rewrite <-mod_add_mod).
      repeat case_decide; simpl; lia.
    + rewrite mod_add_mod in Hd. apply mod_add_cancel in Hd; [|lia..].
      repeat case_decide; simpl; lia.
    + assert (length l mod n ≠ k) by (intros <-; apply Hd; by rewrite <-mod_add_mod).
      repeat case_decide; simpl; lia.
Qed.

(** The [t]-th card taken from the deck becomes card number [t / n] of the
    hand of the player [t mod n] seats after the first recipient. *)
Lemma dealt_to_lookup n s (rdeck : list Card) t c :
  0 < n → rdeck !! t = Some c →
  dealt_to n s ((s + t) mod n) 0 rdeck !! (t / n) = Some c.
Proof.
  intros Hn Ht.
  pose proof (Nat.mod_upper_bound t n ltac:(lia)) as Hb.
  rewrite <-(take_drop_middle rdeck t c Ht), dealt_to_app.
  assert (length (take t rdeck) = t) as Hlen.
  { apply length_take_le. apply lookup_lt_Some in Ht. lia. }
  rewrite (mod_add_mod n s t) at 1.
  rewrite lookup_app_r; rewrite dealt_to_length, Hlen by done.
  - rewrite decide_False by lia. rewrite Nat.add_0_r, Nat.sub_diag. simpl.
    by rewrite decide_True.
  - case_decide; lia.
Qed.

Lemma deal_loop_length s i rdeck ps :
  length (deal_loop s i rdeck ps) = length ps.
Proof.
  revert i ps. induction rdeck as [|c l IH]; intros i ps; simpl; [done|].
  by rewrite IH, length_alter.
Qed.

Lemma deal_loop_lookup s i rdeck ps p q :
  ps !! p = Some q →
  deal_loop s i rdeck ps !! p =
  Some (push_hand (dealt_to (length ps) s p i rdeck) q).
Proof.
  revert i ps q. induction rdeck as [|c l IH]; intros i ps q Hq; simpl.
  - rewrite Hq. f_equal. destruct q; unfold push_hand, set_hand; simpl.
    by rewrite app_nil_r.
  - case_decide as Hd.
    + erewrite IH; [|rewrite Hd, list_lookup_alter_eq, Hq; done].
      rewrite length_alter. f_equal. unfold push_hand, set_hand; simpl.
      by rewrite <-app_assoc.
    + erewrite IH; [|rewrite list_lookup_alter_ne, Hq; done].
      by rewrite length_alter.
Qed.

Lemma mod_add_reach n s p :
  0 < n → p < n → s < n → ∃ k, k < n ∧ (s + k) mod n = p.
Proof.
  intros Hn Hp Hs. exists ((p + n - s) mod n). split.
  - apply Nat.mod_upper_bound. lia.
  - rewrite <-mod_add_mod. replace (s + (p + n - s)) with (p + 1 * n) by lia.
    rewrite Nat.Div0.mod_add. by apply Nat.mod_small.
Qed.

Lemma handCards_alter_push cs i ps q :
  ps !! i = Some q →
  handCards (alter (push_hand cs) i ps) ≡ₚ cs ++ handCards ps.
Proof.
  unfold handCards. revert i. induction ps as [|p ps IH]; intros [|i] Hq;
    simplify_eq/=.
  - rewrite (comm (++) (hand q) cs). by rewrite <-app_assoc.
  - rewrite (IH i Hq). by rewrite !app_assoc, (comm (++) cs).
Qed.

Lemma handCards_deal_loop s i rdeck ps :
  ps ≠ [] →
  handCards (deal_loop s i rdeck ps) ≡ₚ rdeck ++ handCards ps.
Proof.
  intros Hne. revert i ps Hne.
  induction rdeck as [|c l IH]; intros i ps Hne; simpl; [done|].
  assert (0 < length ps) as Hlen by (destruct ps; simpl; [done|lia]).
  destruct (lookup_lt_is_Some_2 ps ((s + i) mod length ps)) as [q Hq].
  { apply Nat.mod_upper_bound. lia. }
  rewrite IH.
  - rewrite (handCards_alter_push [c] _ _ _ Hq). simpl.
    by rewrite <-Permutation_middle.
  - intros Hnil. apply (f_equal length) in Hnil.
    rewrite length_alter in Hnil. simpl in Hnil. lia.
Qed.

Lemma handCards_cleared ps : handCards (set_hand [] <$> ps) = [].
Proof. unfold handCards. induction ps as [|p ps IH]; simpl; [done|]. apply IH. Qed.

(** ** The deck *)

Lemma oneDeck_length : length oneDeck = 52.
Proof. reflexivity. Qed.

Lemma orderedDeck_length d : length (orderedDeck d) = 52 * d.
Proof.
  induction d as [|d IH]; [done|].
  change (orderedDeck (S d)) with (oneDeck ++ orderedDeck d).
  rewrite length_app, IH, oneDeck_length. lia.
Qed.

Lemma occurrences_oneDeck c : occurrences c oneDeck = 1.
Proof. destruct c as [[] []]; vm_compute; reflexivity. Qed.

Lemma occurrences_orderedDeck c d : occurrences c (orderedDeck d) = d.
Proof.
  induction d as [|d IH]; [done|].
  change (orderedDeck (S d)) with (oneDeck ++ orderedDeck d).
  unfold occurrences in *. rewrite count_occ_app, IH.
  fold (occurrences c oneDeck). by rewrite occurrences_oneDeck.
Qed.

Lemma swap_Permutation {A} i j (l : list A) : swap i j l ≡ₚ l.
Proof.
  unfold swap. destruct (l !! i) as [x|] eqn:Hi; [|done].
  destruct (l !! j) as [y|] eqn:Hj; [|done].
  by apply Permutation_insert_swap.
Qed.

Lemma shuffle_from_Permutation rand i deck : shuffle_from rand i deck ≡ₚ deck.
Proof.
  revert deck. induction i as [|i IH]; intros deck; simpl; [done|].
  by rewrite IH, swap_Permutation.
Qed.

Lemma createDeck_Permutation rand d : createDeck rand d ≡ₚ orderedDeck d.
Proof. apply shuffle_from_Permutation. Qed.

Lemma occurrences_Permutation c l1 l2 : l1 ≡ₚ l2 → occurrences c l1 = occurrences c l2.
Proof. intros Hp. unfold occurrences. by apply Permutation_count_occ. Qed.

Lemma numDecksFor_ceil ps :
  1 ≤ length ps → length ps ≤ 5 * numDecksFor ps ∧ 5 * numDecksFor ps < length ps + 5.
Proof.
  intros Hn. unfold numDecksFor, ceilDiv.
  pose proof (Nat.div_mod_eq (length ps + 5 - 1) 5) as E.
  pose proof (Nat.mod_upper_bound (length ps + 5 - 1) 5 ltac:(lia)) as B.
  lia.
Qed.

Lemma find_findIndex {A} (P : A → Prop) `{∀ x, Decision (P x)} (l : list A) i x :
  find P l = Some (i, x) → findIndex P l = Z.of_nat i.
Proof. unfold find, findIndex. by intros ->. Qed.

Lemma find_fmap_set_hand (P : PlayerState → Prop) `{∀ x, Decision (P x)} ps i x :
  (∀ p, P (set_hand [] p) ↔ P p) →
  find P ps = Some (i, x) →
  find P (set_hand [] <$> ps) = Some (i, set_hand [] x).
Proof.
  intros HP Hf. unfold find in *.
  apply list_find_Some in Hf as (Hi & HPx & Hlt).
  apply list_find_Some. split_and!.
  - by rewrite list_lookup_fmap, Hi.
  - by apply HP.
  - intros j y Hj Hji. rewrite list_lookup_fmap in Hj.
    destruct (ps !! j) as [y'|] eqn:Hy; simplify_eq/=.
    rewrite HP. by eapply Hlt.
Qed.

(** C8.  With 2 to 10 players in the lobby and the host at index [h], a
    start by the host is accepted.  The deck built has [52 * d] cards where
    [d] is the ceiling of [n / 5], and holds every rank-suit pair exactly
    [d] times.  The cards are taken from the deck one at a time, the [t]-th
    going to the player [t] seats (cyclically) after the one that follows
    the host, as card number [t / n] of that hand; the hands together are
    exactly the deck, and any two hands differ in size by at most one. *)
Theorem C8_start_deals_whole_deck (rand : nat → nat) (g : GameState)
    (by_ : string) (h : nat) (dealer : PlayerState) :
  2 ≤ length (players g) ≤ 10 →
  started g = false →
  hostId g = by_ →
  find (λ p, pid p = hostId g) (players g) = Some (h, dealer) →
  ∃ g', game_start rand g by_ = Some g' ∧
    let n := length (players g) in
    let d := numDecksFor (players g) in
    let deck := createDeck rand d in
    let first := (h + 1) mod n in
    (n ≤ 5 * d ∧ 5 * d < n + 5) ∧
    length deck = 52 * d ∧
    (∀ c, occurrences c deck = d) ∧
    set_hand [] <$> players g' = set_hand [] <$> players g ∧
    (∀ t c, reverse deck !! t = Some c →
       ∃ q, players g' !! ((first + t) mod n) = Some q ∧
            hand q !! (t / n) = Some c) ∧
    handCards (players g') ≡ₚ deck ∧
    (∀ q q', q ∈ players g' → q' ∈ players g' →
       length (hand q) ≤ length (hand q') + 1).
Proof.
  intros [Hn2 Hn10] Hst Hby Hfind.
  unfold game_start. rewrite !option_guard_True by done.
  eexists. split; [reflexivity|]. simpl.
  set (n := length (players g)).
  set (ps0 := set_hand [] <$> players g).
  assert (length ps0 = n) as Hlen0 by apply length_fmap.
  assert (0 < n) as Hn by lia.
  assert (numDecksFor ps0 = numDecksFor (players g)) as Hd.
  { unfold numDecksFor. by rewrite Hlen0. }
  assert (dealHands rand ps0 (hostId g) =
          deal_loop ((h + 1) mod n) 0
            (reverse (createDeck rand (numDecksFor (players g)))) ps0) as Hdeal.
  { unfold dealHands.
    rewrite (find_findIndex _ ps0 h (set_hand [] dealer)), Hd, Hlen0.
    - replace (Z.to_nat (0 `max` Z.of_nat h)) with h by lia. done.
    - by apply find_fmap_set_hand. }
  rewrite Hdeal. clear Hdeal.
  set (deck := createDeck rand (numDecksFor (players g))).
  set (first := (h + 1) mod n).
  assert (length deck = 52 * numDecksFor (players g)) as Hdecklen.
  { unfold deck. by rewrite createDeck_Permutation, orderedDeck_length. }
  assert (∀ p q, ps0 !! p = Some q →
            deal_loop first 0 (reverse deck) ps0 !! p =
            Some (set_hand (dealt_to n first p 0 (reverse deck)) q)) as Hlook.
  { intros p q Hq. rewrite (deal_loop_lookup _ _ _ _ _ _ Hq), Hlen0.
    f_equal. unfold push_hand. apply list_lookup_fmap_Some in Hq as (q0 & -> & _).
    done. }
  split_and!.
  - apply numDecksFor_ceil. fold n. lia.
  - apply numDecksFor_ceil. fold n. lia.
  - done.
  - intros c. unfold deck.
    by rewrite (occurrences_Permutation _ _ _ (createDeck_Permutation _ _)),
      occurrences_orderedDeck.
  - fold ps0. apply list_eq. intros p. rewrite list_lookup_fmap.
    destruct (ps0 !! p) as [q|] eqn:Hq.
    + rewrite (Hlook p q Hq). simpl. f_equal.
      apply list_lookup_fmap_Some in Hq as (q0 & -> & _). done.
    + rewrite lookup_ge_None_2; [done|].
      rewrite deal_loop_length. by apply lookup_ge_None_1.
  - intros t c Ht.
    destruct (lookup_lt_is_Some_2 ps0 ((first + t) mod n)) as [q Hq].
    { rewrite Hlen0. apply Nat.mod_upper_bound. lia. }
    eexists. split; [by apply Hlook|]. simpl.
    by apply dealt_to_lookup.
  - rewrite handCards_deal_loop.
    + unfold ps0. by rewrite handCards_cleared, app_nil_r, reverse_Permutation.
    + intros Hnil. rewrite Hnil in Hlen0. simpl in Hlen0. lia.
  - assert (∀ q, q ∈ deal_loop first 0 (reverse deck) ps0 →
              length deck / n ≤ length (hand q) ≤ length deck / n + 1) as Hbal.
    { intros q [p Hp]%list_elem_of_lookup.
      assert (p < n) as Hpn.
      { apply lookup_lt_Some in Hp. by rewrite deal_loop_length, Hlen0 in Hp. }
      destruct (lookup_lt_is_Some_2 ps0 p) as [q0 Hq0]; [lia|].
      rewrite (Hlook p q0 Hq0) in Hp. injection Hp as <-. simpl.
      destruct (mod_add_reach n first p) as (k & Hk & <-); [lia..| |].
      { apply Nat.mod_upper_bound. lia. }
      rewrite dealt_to_length, length_reverse by done.
      case_decide; lia. }
    intros q q' Hq Hq'. apply Hbal in Hq, Hq'. lia.
Qed.

Lemma C8_start_deals_whole_deck_witness :
  2 ≤ length (players lobby2) ≤ 10 ∧
  started lobby2 = false ∧
  hostId lobby2 = "pB" ∧
  find (λ p, pid p = hostId lobby2) (players lobby2)
    = Some (0, mkPlayer "pB" "Bob" "kB" [] true) ∧
  ∃ g', game_start zeros lobby2 "pB" = Some g' ∧
    length (createDeck zeros (numDecksFor (players lobby2))) = 52 ∧
    (∀ c, occurrences c (createDeck zeros (numDecksFor (players lobby2))) = 1) ∧
    handCards (players g') ≡ₚ createDeck zeros (numDecksFor (players lobby2)) ∧
    (∀ q q', q ∈ players g' → q' ∈ players g' →
       length (hand q) ≤ length (hand q') + 1).
Proof.
  assert (2 ≤ length (players lobby2) ≤ 10) as H1 by (vm_compute; lia).
  assert (started lobby2 = false) as H2 by reflexivity.
  assert (hostId lobby2 = "pB") as H3 by reflexivity.
  assert (find (λ p, pid p = hostId lobby2) (players lobby2)
          = Some (0, mkPlayer "pB" "Bob" "kB" [] true)) as H4
    by (vm_compute; reflexivity).
  split; [exact H1|]. split; [exact H2|]. split; [exact H3|].
  split; [exact H4|].
  destruct (C8_start_deals_whole_deck zeros lobby2 "pB" 0 _ H1 H2 H3 H4)
    as (g' & Hs & H).
  cbv zeta in H. destruct H as (_ & Hl & Ho & _ & _ & Hp & Hb).
  exists g'. split; [exact Hs|]. split; [exact Hl|]. split; [exact Ho|].
  split; [exact Hp|exact Hb].
Defined.

(** ** Rank prefixes *)

(** No rank string is a prefix of another card's string: [startsWith]
    on the rendered card tests the rank. *)
Lemma startsWith_rank c r :
  startsWith (card_str c) (rank_str r) = true ↔ rank c = r.
Proof.
  destruct c as [rc sc], r, rc, sc; vm_compute; split; congruence.
Qed.

Lemma card_str_inj c1 c2 : card_str c1 = card_str c2 → c1 = c2.
Proof.
  destruct c1 as [r1 s1], c2 as [r2 s2], r1, s1, r2, s2; vm_compute;
    congruence.
Qed.

Lemma liar_false_iff lp pile :
  liar lp pile = false ↔
  Forall (λ c, rank c = claimedRank lp) (slice_neg (count lp) pile).
Proof.
  unfold liar. generalize (slice_neg (count lp) pile). intros l.
  induction l as [|c l IH]; simpl.
  - split; [constructor|done].
  - pose proof (startsWith_rank c (claimedRank lp)) as Hc.
    destruct (startsWith (card_str c) (rank_str (claimedRank lp))); simpl.
    + rewrite IH. split; [constructor; tauto|by inversion 1].
    + split; [done|]. inversion 1; subst. symmetry. by apply Hc.
Qed.

Lemma slice_neg_last {A} n (l : list A) :
  1 ≤ n → slice_neg n l = drop (length l - n) l.
Proof. intros Hn. unfold slice_neg. rewrite decide_False by lia. done. Qed.

(** ** Acceptance conditions of the handlers *)

(** Peel the outermost guard of a handler known to have run to its end. *)
Ltac open_guard H :=
  rewrite option_guard_decide in H;
  match type of H with
  | (if decide ?P then _ else _) = _ =>
      destruct (decide P); [|discriminate H]
  end.

(** Peel the outermost lookup. *)
Ltac open_bind H x Hx :=
  match type of H with
  | (?m ≫= _) = _ => destruct m as [x|] eqn:Hx; [simpl in H|discriminate H]
  end.

Lemma game_bs_Some g by_ now g' :
  game_bs g by_ now = Some g' ↔
  started g = true ∧
  ∃ lp deadline i lastPlayer j caller,
    lastPlay g = Some lp ∧
    bsWindowUntil g = Some deadline ∧ deadline ≠ 0%Z ∧ (now ≤ deadline)%Z ∧
    find (λ p, name p = username lp) (players g) = Some (i, lastPlayer) ∧
    find (λ p, pid p = by_) (players g) = Some (j, caller) ∧
    g' = mkGame (gid g)
           (alter (push_hand (pileFaceDown g))
              (if liar lp (pileFaceDown g) then i else j) (players g))
           (hostId g) (started g) (currentTurnIndex g) (currentRequiredRank g)
           [] None None None (Some false).
Proof.
  unfold game_bs. split.
  - intros H. open_guard H. split; [done|].
    open_bind H lp Hlp. open_guard H. open_bind H deadline Hd.
    open_guard H. open_bind H il Hi. destruct il as [i lastPlayer].
    open_bind H jc Hj. destruct jc as [j caller]. injection H as <-.
    exists lp, deadline, i, lastPlayer, j, caller.
    split_and!; first [done|lia].
  - intros (Hst & lp & deadline & i & lastPlayer & j & caller &
            Hlp & Hd & Hnz & Hle & Hi & Hj & ->).
    rewrite Hlp, Hd. simpl. rewrite !option_guard_True by (done || lia).
    rewrite Hi. simpl. rewrite Hj. done.
Qed.

Lemma game_peanutButter_Some g by_ g' :
  game_peanutButter g by_ = Some g' ↔
  started g = true ∧ by_ ≠ "" ∧
  peanutButterEligiblePlayerId g = Some by_ ∧
  hasNextPlayerPlayedAfterLiar g = Some true ∧
  ∃ lp i lastPlayer,
    lastPlay g = Some lp ∧
    find (λ p, name p = username lp) (players g) = Some (i, lastPlayer) ∧
    g' = mkGame (gid g) (alter (push_hand (pileFaceDown g)) i (players g))
           (hostId g) (started g) (currentTurnIndex g) (currentRequiredRank g)
           [] None (bsWindowUntil g) None (Some false).
Proof.
  unfold game_peanutButter. split.
  - intros H. do 4 open_guard H.
    open_bind H lp Hlp. open_bind H il Hi. destruct il as [i lastPlayer].
    injection H as <-.
    match goal with He : peanutButterEligiblePlayerId g = Some _,
                    Ht : truthy_str _ |- _ => rewrite He in Ht; simpl in Ht end.
    split_and!; try done. by exists lp, i, lastPlayer.
  - intros (Hst & Hne & He & Hn & lp & i & lastPlayer & Hlp & Hi & ->).
    rewrite Hlp. simpl. rewrite Hi. simpl.
    rewrite !option_guard_True; try done. by rewrite He.
Qed.

Lemma game_play_Some g by_ cards claimed now g' :
  game_play g by_ cards claimed now = Some g' ↔
  started g = true ∧
  ∃ current k player,
    players g !! currentTurnIndex g = Some current ∧ pid current = by_ ∧
    find (λ p, pid p = by_) (players g) = Some (k, player) ∧
    1 ≤ length cards ∧ length cards ≤ getMaxSelectable (players g) ∧
    Forall (λ c, indexOf c (hand player) ≠ (-1)%Z) cards ∧
    g' = let hp := remove_cards cards (hand player) (pileFaceDown g) in
         let ps := <[k := set_hand hp.1 player]> (players g) in
         mkGame (gid g) ps (hostId g) (started g)
           ((currentTurnIndex g + 1) mod length ps)
           (nextRank (currentRequiredRank g)) hp.2
           (Some (mkPlay (name player) (length cards) claimed))
           (Some (now + 5000)%Z) (Some (pid player))
           (Some (bool_decide
                    (truthy_str (peanutButterEligiblePlayerId g) ∧
                     peanutButterEligiblePlayerId g ≠ Some (pid player)))).
Proof.
  unfold game_play. split.
  - intros H. open_guard H. split; [done|].
    open_bind H current Hc. open_guard H.
    open_bind H kp Hk. destruct kp as [k player].
    do 2 open_guard H. injection H as <-.
    exists current, k, player. split_and!; first [done|lia].
  - intros (Hst & current & k & player & Hc & Hid & Hk & H1 & Hmax & Hown & ->).
    rewrite Hc. simpl. rewrite Hk. simpl.
    rewrite !option_guard_True; done.
Qed.

(** ** Counting cards *)

Lemma find_Some_lookup {A} (P : A → Prop) `{∀ x, Decision (P x)} (l : list A) i x :
  find P l = Some (i, x) → l !! i = Some x ∧ P x.
Proof. unfold find. rewrite list_find_Some. tauto. Qed.

Lemma handTotal_handCards ps : handTotal ps = length (handCards ps).
Proof.
  unfold handTotal, handCards. induction ps as [|p ps IH]; simpl; [done|].
  by rewrite length_app, IH.
Qed.

Lemma handTotal_insert ps k p q :
  ps !! k = Some p →
  handTotal (<[k := q]> ps) + length (hand p) = handTotal ps + length (hand q).
Proof.
  unfold handTotal. revert k. induction ps as [|a ps IH]; intros [|k] Hk;
    simplify_eq/=; [lia|].
  specialize (IH k Hk). lia.
Qed.

Lemma handTotal_alter_push cs ps i q :
  ps !! i = Some q →
  handTotal (alter (push_hand cs) i ps) = handTotal ps + length cs.
Proof.
  intros Hq. rewrite !handTotal_handCards.
  by rewrite (handCards_alter_push _ _ _ _ Hq), length_app, Nat.add_comm.
Qed.

Lemma handTotal_delete ps i p :
  ps !! i = Some p → handTotal (delete i ps) + length (hand p) = handTotal ps.
Proof.
  intros Hp. unfold handTotal.
  rewrite (sum_list_with_Permutation_proper _ _ _ (delete_Permutation ps i p Hp)).
  simpl. lia.
Qed.

(** ** Removing the submitted cards *)

Lemma indexOf_elem (c : Card) (h : list Card) :
  c ∈ h → ∃ i, indexOf c h = Z.of_nat i ∧ h !! i = Some c.
Proof.
  intros Hc. unfold indexOf, findIndex.
  destruct (list_find_elem_of (λ y, y = c) h c Hc eq_refl) as [[i x] Hf].
  rewrite Hf. exists i. split; [done|].
  apply list_find_Some in Hf as (Hi & -> & _). done.
Qed.

Lemma indexOf_found (c : Card) (h : list Card) :
  indexOf c h ≠ (-1)%Z ↔ c ∈ h.
Proof.
  split.
  - unfold indexOf, findIndex.
    destruct (list_find (λ y, y = c) h) as [[i x]|] eqn:Hf; [|done].
    intros _. apply list_find_Some in Hf as (Hi & -> & _).
    by eapply list_elem_of_lookup_2.
  - intros (i & -> & _)%indexOf_elem. lia.
Qed.

Lemma splice1_at {A} (i : nat) (l : list A) :
  i < length l → splice1 (Z.of_nat i) l = delete i l.
Proof.
  intros Hi. unfold splice1.
  destruct (Z.ltb_spec (Z.of_nat i) 0); [lia|]. f_equal. lia.
Qed.

(** When the submitted cards are covered by the hand, the loop takes
    exactly them out of the hand and appends them to the pile. *)
Lemma remove_cards_covered cards h pile :
  cards ⊆+ h →
  ∃ h', remove_cards cards h pile = (h', pile ++ cards) ∧ h ≡ₚ cards ++ h'.
Proof.
  revert h pile. induction cards as [|c cs IH]; intros h pile Hsub; simpl.
  - exists h. by rewrite app_nil_r.
  - assert (c ∈ h) as Hc.
    { eapply elem_of_submseteq; [|exact Hsub]. by left. }
    destruct (indexOf_elem c h Hc) as (i & -> & Hi).
    rewrite splice1_at by (by eapply lookup_lt_Some).
    pose proof (delete_Permutation h i c Hi) as Hperm.
    destruct (IH (delete i h) (pile ++ [c])) as (h' & -> & Hh').
    { rewrite Hperm in Hsub. by apply (submseteq_app_inv_l _ _ [c]). }
    exists h'. split.
    + by rewrite <-app_assoc.
    + by rewrite Hperm, Hh'.
Qed.

(** ** The number of cards in play *)

Lemma game_start_total rand g by_ g' :
  game_start rand g by_ = Some g' →
  totalCards g' = 52 * numDecksFor (players g').
Proof.
  unfold game_start. intros H. do 3 open_guard H. injection H as <-.
  unfold totalCards, dealHands. simpl.
  set (ps0 := set_hand [] <$> players g).
  assert (length ps0 = length (players g)) as Hlen by apply length_fmap.
  assert (ps0 ≠ []) as Hne.
  { intros Hnil. rewrite Hnil in Hlen. simpl in Hlen. lia. }
  rewrite handTotal_handCards.
  rewrite (Permutation_length (handCards_deal_loop _ 0 _ ps0 Hne)).
  unfold ps0 at 2. rewrite handCards_cleared, app_nil_r, length_reverse.
  rewrite (Permutation_length (createDeck_Permutation _ _)), orderedDeck_length.
  unfold numDecksFor. rewrite deal_loop_length. lia.
Qed.

Lemma game_play_total g by_ cards claimed now g' :
  game_play g by_ cards claimed now = Some g' →
  covered g (EvPlay by_ cards claimed now) →
  totalCards g' = totalCards g.
Proof.
  intros (Hst & current & k & player & Hc & Hid & Hk & H1 & Hmax & Hown & ->)
    %game_play_Some Hcov.
  specialize (Hcov k player Hk). simpl in Hcov.
  destruct (remove_cards_covered cards (hand player) (pileFaceDown g) Hcov)
    as (h' & Hrm & Hperm).
  apply find_Some_lookup in Hk as [Hk _].
  unfold totalCards. simpl. rewrite Hrm. simpl.
  pose proof (handTotal_insert (players g) k player (set_hand h' player) Hk) as Ht.
  simpl in Ht. apply Permutation_length in Hperm.
  rewrite length_app in *. lia.
Qed.

Lemma game_bs_total g by_ now g' :
  game_bs g by_ now = Some g' → totalCards g' = totalCards g.
Proof.
  intros (Hst & lp & deadline & i & lastPlayer & j & caller &
          Hlp & Hd & Hnz & Hle & Hi & Hj & ->)%game_bs_Some.
  apply find_Some_lookup in Hi as [Hi _]. apply find_Some_lookup in Hj as [Hj _].
  unfold totalCards. simpl.
  destruct (liar lp (pileFaceDown g)); erewrite handTotal_alter_push by done; lia.
Qed.

Lemma game_peanutButter_total g by_ g' :
  game_peanutButter g by_ = Some g' → totalCards g' = totalCards g.
Proof.
  intros (Hst & Hne & He & Hn & lp & i & lastPlayer & Hlp & Hi & ->)
    %game_peanutButter_Some.
  apply find_Some_lookup in Hi as [Hi _].
  unfold totalCards. simpl. erewrite handTotal_alter_push by done. lia.
Qed.

Lemma disconnect_game_total g socket g' :
  disconnect_game g socket = Some g' →
  ∃ idx leaver,
    find (λ p, socketId p = socket) (players g) = Some (idx, leaver) ∧
    totalCards g' + length (hand leaver) = totalCards g.
Proof.
  unfold disconnect_game. intros H.
  open_bind H il Hf. destruct il as [idx leaver].
  exists idx, leaver. split; [done|].
  apply find_Some_lookup in Hf as [Hl _].
  pose proof (handTotal_delete _ _ _ Hl) as Ht.
  destruct (delete idx (players g)) as [|p0 rest] eqn:Hdel.
  - injection H as <-. unfold totalCards, handTotal in *. simpl in *. lia.
  - destruct (bool_decide (pid leaver = hostId g));
      injection H as <-; unfold totalCards, handTotal in *; simpl in *; lia.
Qed.

(** C3, as amended.  The deal puts [52 * deckCount] cards in play.  A
    challenge and a counter-challenge keep the number of cards in play, and
    so does a play whose cards are covered by the player's hand.  A
    disconnect takes the leaving player's hand out of play. *)
Theorem C3_card_total (g : GameState) (e : GameEvent) (g' : GameState) :
  handle g e = Some g' →
  covered g e →
  match e with
  | EvStart _ _ => totalCards g' = 52 * numDecksFor (players g')
  | EvPlay _ _ _ _ | EvBs _ _ | EvPeanutButter _ => totalCards g' = totalCards g
  | EvDisconnect socket =>
      ∃ idx leaver,
        find (λ p, socketId p = socket) (players g) = Some (idx, leaver) ∧
        totalCards g' + length (hand leaver) = totalCards g
  end.
Proof.
  destruct e; simpl; intros H Hcov.
  - by eapply game_start_total.
  - by eapply game_play_total.
  - by eapply game_bs_total.
  - by eapply game_peanutButter_total.
  - by eapply disconnect_game_total.
Qed.

Lemma C3_card_total_witness :
  handle started2 (EvPlay "pA" [AS] R5 1000) = Some afterP1 ∧
  covered started2 (EvPlay "pA" [AS] R5 1000) ∧
  totalCards afterP1 = totalCards started2.
Proof.
  assert (covered started2 (EvPlay "pA" [AS] R5 1000)) as Hcov.
  { intros k player Hk. vm_compute in Hk. injection Hk as <- <-.
    apply submseteq_skip, submseteq_nil_l. }
  split; [vm_compute; reflexivity|]. split; [exact Hcov|].
  apply (C3_card_total started2 (EvPlay "pA" [AS] R5 1000) afterP1);
    [vm_compute; reflexivity|exact Hcov].
Defined.

(** Counterexample to C3 as the specification states it: Alice leaves the
    two-player game just dealt and her 26 cards leave with her. *)
Lemma C3_counterexample :
  started started2 = true ∧
  totalCards started2 = 52 ∧
  ∃ g', disconnect_game started2 "kA" = Some g' ∧
        started g' = true ∧
        totalCards g' = 26 ∧
        52 * numDecksFor (players g') = 52.
Proof.
  split; [reflexivity|]. split; [reflexivity|].
  eexists. split; [vm_compute; reflexivity|]. by vm_compute.
Qed.

(** ** Playing cards *)

(** A covered play takes exactly the submitted cards out of the player's
    hand, appends them to the pile in the order submitted, and leaves the
    other players as they were. *)
Lemma game_play_moves_cards g by_ cards claimed now g' :
  game_play g by_ cards claimed now = Some g' →
  covered g (EvPlay by_ cards claimed now) →
  ∃ k player player',
    find (λ p, pid p = by_) (players g) = Some (k, player) ∧
    players g' = <[k := player']> (players g) ∧
    pid player' = pid player ∧
    hand player ≡ₚ cards ++ hand player' ∧
    pileFaceDown g' = pileFaceDown g ++ cards.
Proof.
  intros (Hst & current & k & player & Hc & Hid & Hk & H1 & Hmax & Hown & ->)
    %game_play_Some Hcov.
  specialize (Hcov k player Hk). simpl in Hcov.
  destruct (remove_cards_covered cards (hand player) (pileFaceDown g) Hcov)
    as (h' & Hrm & Hperm).
  exists k, player, (set_hand h' player). simpl. rewrite Hrm. done.
Qed.

(** The turn pointer written by an accepted play is a valid index. *)
Lemma game_play_turn_valid g by_ cards claimed now g' :
  game_play g by_ cards claimed now = Some g' →
  is_Some (players g' !! currentTurnIndex g').
Proof.
  intros (Hst & current & k & player & Hc & Hid & Hk & H1 & Hmax & Hown & ->)
    %game_play_Some. simpl.
  apply lookup_lt_is_Some_2, Nat.mod_upper_bound.
  rewrite length_insert. apply lookup_lt_Some in Hc. lia.
Qed.

(** The turn pointer written by an accepted start is a valid index. *)
Lemma game_start_turn_valid rand g by_ g' :
  game_start rand g by_ = Some g' →
  is_Some (players g' !! currentTurnIndex g').
Proof.
  unfold game_start. intros H. do 3 open_guard H. injection H as <-. simpl.
  apply lookup_lt_is_Some_2.
  set (ps := dealHands rand (set_hand [] <$> players g) (hostId g)).
  assert (length ps = length (players g)) as Hlen.
  { unfold ps, dealHands. by rewrite deal_loop_length, length_fmap. }
  assert (-1 ≤ findIndex (λ p, pid p = hostId g) ps)%Z as Hlo.
  { unfold findIndex. destruct (list_find _ ps) as [[i x]|]; lia. }
  pose proof (Z.rem_bound_pos
                (findIndex (λ p, pid p = hostId g) ps + 1)
                (Z.of_nat (length ps))) as Hb.
  lia.
Qed.

(** With distinct player identifiers, a play is accepted exactly when the
    player at the turn pointer sends it, with 1 to [4 * deckCount] cards,
    each of them in that player's hand. *)
Lemma game_play_accepted_iff g by_ cards claimed now :
  started g = true →
  NoDup (pid <$> players g) →
  is_Some (game_play g by_ cards claimed now) ↔
  ∃ current,
    players g !! currentTurnIndex g = Some current ∧ pid current = by_ ∧
    1 ≤ length cards ∧ length cards ≤ numDecksFor (players g) * 4 ∧
    ∀ c, c ∈ cards → c ∈ hand current.
Proof.
  intros Hst Hnd. split.
  - intros [g' (_ & current & k & player & Hc & Hid & Hk & H1 & Hmax & Hown & _)
              %game_play_Some].
    apply find_Some_lookup in Hk as [Hk Hp].
    assert (k = currentTurnIndex g) as ->.
    { eapply (NoDup_lookup (pid <$> players g)); [done| |].
      - by rewrite list_lookup_fmap, Hk.
      - rewrite list_lookup_fmap, Hc. simpl. congruence. }
    assert (player = current) as -> by congruence.
    exists current. split_and!; try done.
    intros c Hcin. apply indexOf_found.
    rewrite Forall_forall in Hown. by apply Hown, list_elem_of_In.
  - intros (current & Hc & Hid & H1 & Hmax & Hown).
    eexists. apply game_play_Some. split; [done|].
    exists current, (currentTurnIndex g), current. split_and!; try done.
    + unfold find. apply list_find_Some. split_and!; try done.
      intros j y Hj Hlt Hy.
      assert (j = currentTurnIndex g); [|lia].
      eapply (NoDup_lookup (pid <$> players g)); [done| |].
      * by rewrite list_lookup_fmap, Hj.
      * rewrite list_lookup_fmap, Hc. simpl. congruence.
    + apply Forall_forall. intros c Hcin%list_elem_of_In.
      by apply indexOf_found, Hown.
Qed.

(** The hands dealt in the concrete sessions, for reference. *)
Example started2_hands :
  (λ p, (pid p, card_str <$> hand p)) <$> players started2 =
  [("pB", ["KC"; "KH"; "QC"; "QH"; "JC"; "JH"; "10C"; "10H"; "9C"; "9H";
           "8C"; "8H"; "7C"; "7H"; "6C"; "6H"; "5C"; "5H"; "4C"; "4H";
           "3C"; "3H"; "2C"; "2H"; "AC"; "AH"]);
   ("pA", ["AS"; "KD"; "KS"; "QD"; "QS"; "JD"; "JS"; "10D"; "10S"; "9D";
           "9S"; "8D"; "8S"; "7D"; "7S"; "6D"; "6S"; "5D"; "5S"; "4D";
           "4S"; "3D"; "3S"; "2D"; "2S"; "AD"])].
Proof. vm_compute. reflexivity. Qed.

Example started3_hands :
  (λ p, (pid p, card_str <$> hand p)) <$> players started3 =
  [("p1", ["KD"; "QC"; "QS"; "JH"; "10D"; "9C"; "9S"; "8H"; "7D"; "6C";
           "6S"; "5H"; "4D"; "3C"; "3S"; "2H"; "AD"]);
   ("p2", ["AS"; "KH"; "QD"; "JC"; "JS"; "10H"; "9D"; "8C"; "8S"; "7H";
           "6D"; "5C"; "5S"; "4H"; "3D"; "2C"; "2S"; "AH"]);
   ("p3", ["KC"; "KS"; "QH"; "JD"; "10C"; "10S"; "9H"; "8D"; "7C"; "7S";
           "6H"; "5D"; "4C"; "4S"; "3H"; "2D"; "AC"])].
Proof. vm_compute. reflexivity. Qed.

(** C2.  In the two-player game just dealt, Alice holds one ace of spades
    and submits it twice.  The play is accepted; the second removal finds no
    ace of spades and takes the last card of her hand instead.  The ace of
    spades is then in play twice and the ace of diamonds not at all. *)
Theorem C2_repeated_card_play :
  game_start zeros lobby2 "pB" = Some started2 ∧
  (∃ alice, players started2 !! currentTurnIndex started2 = Some alice ∧
            pid alice = "pA" ∧
            occurrences AS (hand alice) = 1 ∧
            length (hand alice) = 26 ∧ hand alice !! 25 = Some AD) ∧
  occurrences AS (handCards (players started2) ++ pileFaceDown started2) = 1 ∧
  occurrences AD (handCards (players started2) ++ pileFaceDown started2) = 1 ∧
  ∃ g', game_play started2 "pA" [AS; AS] R5 1000 = Some g' ∧
        pileFaceDown g' = [AS; AS] ∧
        occurrences AS (handCards (players g') ++ pileFaceDown g') = 2 ∧
        occurrences AD (handCards (players g') ++ pileFaceDown g') = 0.
Proof.
  split; [vm_compute; reflexivity|]. split.
  { eexists. split; [vm_compute; reflexivity|]. by vm_compute. }
  split; [vm_compute; reflexivity|]. split; [vm_compute; reflexivity|].
  eexists. split; [vm_compute; reflexivity|]. by vm_compute.
Qed.

(** C4.  In the two-player game just dealt the turn pointer is 1.  When
    Bob disconnects, Alice alone remains, at index 0, and the pointer still
    is 1: it names no player, and no play is accepted any more. *)
Theorem C4_disconnect_leaves_turn_dangling :
  game_start zeros lobby2 "pB" = Some started2 ∧
  is_Some (players started2 !! currentTurnIndex started2) ∧
  ∃ g', disconnect_game started2 "kB" = Some g' ∧
        started g' = true ∧
        length (players g') = 1 ∧
        currentTurnIndex g' = 1 ∧
        players g' !! currentTurnIndex g' = None ∧
        ∀ by_ cards claimed now, game_play g' by_ cards claimed now = None.
Proof.
  split; [vm_compute; reflexivity|]. split; [vm_compute; eauto|].
  eexists. split; [vm_compute; reflexivity|].
  split_and!; try (vm_compute; reflexivity).
Qed.

(** ** The counter-challenge *)

(** An accepted play records its own player as the one eligible. *)
Lemma game_play_eligible g by_ cards claimed now g' :
  game_play g by_ cards claimed now = Some g' →
  peanutButterEligiblePlayerId g' = Some by_.
Proof.
  intros (Hst & current & k & player & Hc & Hid & Hk & H1 & Hmax & Hown & ->)
    %game_play_Some. simpl.
  apply find_Some_lookup in Hk as [_ Hp]. by rewrite Hp.
Qed.

(** Once a second player has played, the first player's counter-challenge
    is rejected, in every session. *)
Lemma counter_by_earlier_player_rejected g a b cardsA cardsB rA rB t1 t2 g1 g2 :
  game_play g a cardsA rA t1 = Some g1 →
  game_play g1 b cardsB rB t2 = Some g2 →
  a ≠ b →
  game_peanutButter g2 a = None.
Proof.
  intros _ H2%game_play_eligible Hab.
  destruct (game_peanutButter g2 a) as [g3|] eqn:E; [|done].
  apply game_peanutButter_Some in E as (_ & _ & He & _). congruence.
Qed.

(** C1.  Alice plays, Bob plays, Alice invokes the counter-challenge: the
    invocation is rejected and the session is left as it was, the pile of
    two cards included.  The one identifier that passes the checks is
    Bob's, and then Bob himself receives the pile. *)
Theorem C1_counter_by_first_player_rejected :
  game_play started2 "pA" [AS] R5 1000 = Some afterP1 ∧
  game_play afterP1 "pB" [KC] R6 9000 = Some afterP2 ∧
  pileFaceDown afterP2 = [AS; KC] ∧
  peanutButterEligiblePlayerId afterP2 = Some "pB" ∧
  hasNextPlayerPlayedAfterLiar afterP2 = Some true ∧
  game_peanutButter afterP2 "pA" = None ∧
  on_game_peanutButter {["s1" := afterP2]} "s1" "pA" = {["s1" := afterP2]} ∧
  ∃ g' bob bob',
    game_peanutButter afterP2 "pB" = Some g' ∧
    pileFaceDown g' = [] ∧
    players afterP2 !! 0 = Some bob ∧ players g' !! 0 = Some bob' ∧
    pid bob = "pB" ∧ hand bob' = hand bob ++ [AS; KC] ∧
    players afterP2 !! 1 = players g' !! 1.
Proof.
  split_and!; try (vm_compute; reflexivity).
  do 3 eexists. split; [vm_compute; reflexivity|].
  split_and!; vm_compute; reflexivity.
Qed.

(** C6, as amended.  An accepted counter-challenge clears the eligibility
    and every invocation that follows it is rejected.  A rejected
    counter-challenge leaves the session as it was. *)
Theorem C6_counter_consumed_on_success (g : GameState) (by_ : string) :
  match game_peanutButter g by_ with
  | Some g' =>
      peanutButterEligiblePlayerId g' = None ∧
      hasNextPlayerPlayedAfterLiar g' = Some false ∧
      ∀ by', game_peanutButter g' by' = None
  | None =>
      ∀ (games : gmap string GameState) sessionId,
        games !! sessionId = Some g →
        on_game_peanutButter games sessionId by_ = games
  end.
Proof.
  destruct (game_peanutButter g by_) as [g'|] eqn:E.
  - apply game_peanutButter_Some in E
      as (Hst & Hne & He & Hn & lp & i & lastPlayer & Hlp & Hi & ->).
    simpl. split_and!; try done. intros by'.
    destruct (game_peanutButter _ by') as [g3|] eqn:E'; [|done].
    apply game_peanutButter_Some in E' as (_ & _ & He' & _). done.
  - intros games sessionId Hg. unfold on_game_peanutButter.
    rewrite Hg. simpl. by rewrite E.
Qed.

(** Counterexample to C6 as the specification states it: Alice's invocation
    after Bob's play is rejected and consumes nothing, and the invocation by
    Bob that follows it succeeds. *)
Lemma C6_counterexample :
  let games : gmap string GameState := {["s1" := afterP2]} in
  let games1 := on_game_peanutButter games "s1" "pA" in
  let games2 := on_game_peanutButter games1 "s1" "pB" in
  games1 = games ∧
  peanutButterEligiblePlayerId <$> games1 !! "s1" = Some (Some "pB") ∧
  ∃ g2, games2 !! "s1" = Some g2 ∧
        game_peanutButter afterP2 "pB" = Some g2 ∧
        pileFaceDown afterP2 = [AS; KC] ∧ pileFaceDown g2 = [] ∧
        peanutButterEligiblePlayerId g2 = None.
Proof.
  cbv zeta. split; [vm_compute; reflexivity|].
  split; [vm_compute; reflexivity|].
  eexists. split; [vm_compute; reflexivity|].
  split_and!; vm_compute; reflexivity.
Qed.

(** ** The challenge *)

Lemma find_unique_name ps uname i lastPlayer k p :
  find (λ q, name q = uname) ps = Some (i, lastPlayer) →
  NoDup (name <$> ps) →
  ps !! k = Some p → name p = uname → k = i.
Proof.
  intros [Hi Hn]%find_Some_lookup Hnd Hk Hp.
  eapply (NoDup_lookup (name <$> ps)); [done| |].
  - by rewrite list_lookup_fmap, Hk.
  - rewrite list_lookup_fmap, Hi. simpl. congruence.
Qed.

(** C5.  The second Sam (identifier p2) plays an ace as a five and Carol
    challenges in time.  The play is a lie, so the pile is owed to the one
    who made it; it goes to the first Sam (identifier p1), found by name,
    and the second Sam keeps the hand he had.  Likewise when the second Sam
    has left before the challenge: the names Sam and Carol are then
    distinct, and the first Sam, who has not played, takes the pile. *)
Theorem C5_pile_to_namesake :
  game_play started3 "p2" [AS] R5 1000 = Some afterSam ∧
  rank AS ≠ R5 ∧
  pileFaceDown afterSam = [AS] ∧
  lastPlay afterSam = Some (mkPlay "Sam" 1 R5) ∧
  peanutButterEligiblePlayerId afterSam = Some "p2" ∧
  (∃ g' actor actor' other other',
     game_bs afterSam "p3" 2000 = Some g' ∧
     players afterSam !! 1 = Some actor ∧ pid actor = "p2" ∧
     players g' !! 1 = Some actor' ∧ hand actor' = hand actor ∧
     players afterSam !! 0 = Some other ∧ pid other = "p1" ∧
     players g' !! 0 = Some other' ∧
     hand other' = hand other ++ pileFaceDown afterSam ∧
     pileFaceDown g' = []) ∧
  disconnect_game afterSam "k2" = Some samLeft ∧
  pid <$> players samLeft = ["p1"; "p3"] ∧
  name <$> players samLeft = ["Sam"; "Carol"] ∧
  (∃ g' other other',
     game_bs samLeft "p3" 2000 = Some g' ∧
     players samLeft !! 0 = Some other ∧ pid other = "p1" ∧
     players g' !! 0 = Some other' ∧
     hand other' = hand other ++ [AS] ∧
     pileFaceDown g' = []).
Proof.
  split; [vm_compute; reflexivity|]. split; [done|].
  split; [vm_compute; reflexivity|]. split; [vm_compute; reflexivity|].
  split; [vm_compute; reflexivity|]. split.
  { do 5 eexists. split; [vm_compute; reflexivity|].
    split_and!; vm_compute; reflexivity. }
  split; [vm_compute; reflexivity|]. split; [vm_compute; reflexivity|].
  split; [vm_compute; reflexivity|].
  do 3 eexists. split; [vm_compute; reflexivity|].
  split_and!; vm_compute; reflexivity.
Qed.

(** ** The challenge window *)

(** C7, as amended.  An accepted play stamps the deadline 5000 ms after
    its arrival.  A challenge mutates the session exactly when the session
    is started, a play is recorded, the deadline is set, not zero and not
    passed, a player bears the recorded name and the challenger is a player
    of the session; otherwise the registry is left as it was.  A
    settlement clears the deadline and the recorded play, and every later
    challenge is rejected. *)
Theorem C7_challenge_window (g : GameState) :
  (∀ by_ cards claimed now g1,
     game_play g by_ cards claimed now = Some g1 →
     bsWindowUntil g1 = Some (now + 5000)%Z) ∧
  (∀ by_ now,
     is_Some (game_bs g by_ now) ↔
     started g = true ∧
     ∃ lp deadline,
       lastPlay g = Some lp ∧
       bsWindowUntil g = Some deadline ∧ deadline ≠ 0%Z ∧ (now ≤ deadline)%Z ∧
       is_Some (find (λ p, name p = username lp) (players g)) ∧
       is_Some (find (λ p, pid p = by_) (players g))) ∧
  (∀ (games : gmap string GameState) sessionId by_ now,
     games !! sessionId = Some g →
     (on_game_bs games sessionId by_ now = games ↔ game_bs g by_ now = None)) ∧
  (∀ by_ now g',
     game_bs g by_ now = Some g' →
     bsWindowUntil g' = None ∧ lastPlay g' = None ∧
     ∀ by' now', game_bs g' by' now' = None).
Proof.
  split_and!.
  - intros by_ cards claimed now g1
      (_ & current & k & player & _ & _ & _ & _ & _ & _ & ->)%game_play_Some.
    done.
  - intros by_ now. split.
    + intros [g' (Hst & lp & deadline & i & lastPlayer & j & caller &
                  Hlp & Hd & Hnz & Hle & Hi & Hj & _)%game_bs_Some].
      split; [done|]. exists lp, deadline. rewrite Hi, Hj. by split_and!.
    + intros (Hst & lp & deadline & Hlp & Hd & Hnz & Hle &
              [[i lastPlayer] Hi] & [[j caller] Hj]).
      eexists. apply game_bs_Some. split; [done|].
      exists lp, deadline, i, lastPlayer, j, caller. by split_and!.
  - intros games sessionId by_ now Hg. unfold on_game_bs. rewrite Hg. simpl.
    destruct (game_bs g by_ now) as [g'|] eqn:E; simpl; [|done].
    split; [|done]. intros Heq. exfalso.
    apply (f_equal (λ m, m !! sessionId)) in Heq.
    rewrite lookup_insert_eq, Hg in Heq. injection Heq as ->.
    apply game_bs_Some in E as (_ & lp & deadline & i & lastPlayer & j & caller &
                                Hlp & _ & _ & _ & _ & _ & Hg').
    apply (f_equal lastPlay) in Hg'. simpl in Hg'. congruence.
  - intros by_ now g'
      (_ & lp & deadline & i & lastPlayer & j & caller & _ & _ & _ & _ & _ & _ & ->)
      %game_bs_Some.
    simpl. split_and!; try done. intros by' now'.
    destruct (game_bs _ by' now') as [g3|] eqn:E; [|done].
    apply game_bs_Some in E as (_ & lp' & ? & ? & ? & ? & ? & Hlp' & _). done.
Qed.

(** Counterexample to C7 as the specification states it: Alice plays at 1000
    and leaves; Bob's challenge at 2000 is within the deadline 6000 and the
    play is still recorded, yet the challenge is rejected because nobody is
    called Alice any more. A challenge in time under an identifier that
    names no player of the session is rejected too. *)
Lemma C7_counterexample :
  game_play started2 "pA" [AS] R5 1000 = Some afterP1 ∧
  (∃ g2, disconnect_game afterP1 "kA" = Some g2 ∧
         started g2 = true ∧
         lastPlay g2 = Some (mkPlay "Alice" 1 R5) ∧
         bsWindowUntil g2 = Some 6000%Z ∧
         pid <$> players g2 = ["pB"] ∧
         game_bs g2 "pB" 2000 = None ∧
         on_game_bs {["s1" := g2]} "s1" "pB" 2000 = {["s1" := g2]}) ∧
  bsWindowUntil afterP1 = Some 6000%Z ∧
  game_bs afterP1 "pZ" 2000 = None.
Proof.
  split; [vm_compute; reflexivity|]. split.
  - eexists. split; [vm_compute; reflexivity|].
    split_and!; vm_compute; reflexivity.
  - split; vm_compute; reflexivity.
Qed.

(** ** Who receives the pile *)

(** C9.  Both settlements look the last player up by name: the pile of a
    challenged lie, and the pile of a counter-challenge, go to the first
    player of the list whose name is the recorded [username].  With two
    players called Sam that player need not be the one who played: after a
    play by the second Sam (identifier p2), Carol's challenge, and likewise
    the second Sam's own counter-challenge three plays later, hands the
    pile to the first Sam (identifier p1). *)
Theorem C9_pile_recipient_by_name :
  (∀ g by_ now g',
     game_bs g by_ now = Some g' →
     ∃ lp i lastPlayer j caller,
       lastPlay g = Some lp ∧
       find (λ p, name p = username lp) (players g) = Some (i, lastPlayer) ∧
       find (λ p, pid p = by_) (players g) = Some (j, caller) ∧
       players g' =
         alter (push_hand (pileFaceDown g))
           (if liar lp (pileFaceDown g) then i else j) (players g)) ∧
  (∀ g by_ g',
     game_peanutButter g by_ = Some g' →
     ∃ lp i lastPlayer,
       lastPlay g = Some lp ∧
       find (λ p, name p = username lp) (players g) = Some (i, lastPlayer) ∧
       players g' = alter (push_hand (pileFaceDown g)) i (players g)) ∧
  (name <$> players started3 = ["Sam"; "Sam"; "Carol"] ∧
   pid <$> players started3 = ["p1"; "p2"; "p3"] ∧
   game_play started3 "p2" [AS] R5 1000 = Some afterSam ∧
   ∃ g', game_bs afterSam "p3" 2000 = Some g' ∧
         pid <$> players g' = ["p1"; "p2"; "p3"] ∧
         (length ∘ hand) <$> players afterSam = [17; 17; 17] ∧
         (length ∘ hand) <$> players g' = [18; 17; 17]) ∧
  (∃ g', game_play afterThree "p2" [KH] R8 25000 = Some afterFour ∧
            pileFaceDown afterFour = [AS; KC; mkCard RK SD; KH] ∧
            game_peanutButter afterFour "p2" = Some g' ∧
            pid <$> players g' = ["p1"; "p2"; "p3"] ∧
            (length ∘ hand) <$> players afterFour = [16; 16; 16] ∧
            (length ∘ hand) <$> players g' = [20; 16; 16]).
Proof.
  split_and!.
  - intros g by_ now g'
      (_ & lp & deadline & i & lastPlayer & j & caller &
       Hlp & _ & _ & _ & Hi & Hj & ->)%game_bs_Some.
    by exists lp, i, lastPlayer, j, caller.
  - intros g by_ g'
      (_ & _ & _ & _ & lp & i & lastPlayer & Hlp & Hi & ->)%game_peanutButter_Some.
    by exists lp, i, lastPlayer.
  - vm_compute; reflexivity.
  - vm_compute; reflexivity.
  - vm_compute; reflexivity.
  - eexists. split; [vm_compute; reflexivity|].
    split_and!; vm_compute; reflexivity.
  - eexists. split; [vm_compute; reflexivity|].
    split_and!; vm_compute; reflexivity.
Qed.

(** ** Kicking in the lobby *)

Lemma session_kick_Some g playerId by_ g' :
  session_kick g playerId by_ = Some g' ↔
  hostId g = by_ ∧ started g = false ∧
  g' = mkGame (gid g) (filter (λ p, pid p ≠ playerId) (players g)) (hostId g)
         (started g) (currentTurnIndex g) (currentRequiredRank g)
         (pileFaceDown g) (lastPlay g) (bsWindowUntil g)
         (peanutButterEligiblePlayerId g) (hasNextPlayerPlayedAfterLiar g).
Proof.
  unfold session_kick. split.
  - intros H. do 2 open_guard H. injection H as <-. done.
  - intros (Hh & Hst & ->). by rewrite !option_guard_True.
Qed.

Lemma hostless_step h g g' :
  hostless h g → lobby_step g g' → hostless h g'.
Proof.
  intros [Hh Hno] [playerId uname socket Hfresh Hj|playerId by_ Hk|socket Hd].
  - unfold session_join in Hj. do 2 open_guard Hj. injection Hj as <-.
    split; [done|]. simpl. intros p [Hp|Hp]%elem_of_app.
    + by apply Hno.
    + apply list_elem_of_singleton in Hp as ->. simpl. congruence.
  - apply session_kick_Some in Hk as (_ & _ & ->). split; [done|]. simpl.
    intros p [_ Hp]%list_elem_of_filter. by apply Hno.
  - unfold disconnect_game in Hd. open_bind Hd il Hf.
    destruct il as [idx leaver].
    apply find_Some_lookup in Hf as [Hl _].
    assert (pid leaver ≠ hostId g) as Hne.
    { rewrite Hh. apply Hno. by eapply list_elem_of_lookup_2. }
    rewrite bool_decide_eq_false_2 in Hd by done.
    assert (∀ p, p ∈ delete idx (players g) → pid p ≠ h) as Hdel.
    { intros p Hp. apply Hno.
      eapply elem_of_submseteq; [exact Hp|].
      apply sublist_submseteq, sublist_delete. }
    destruct (delete idx (players g)) as [|p0 rest];
      injection Hd as <-; by split.
Qed.

Lemma hostless_rtc h g g' :
  hostless h g → rtc lobby_step g g' → hostless h g'.
Proof. intros Hg Hsteps. induction Hsteps; eauto using hostless_step. Qed.

Lemma lobby_step_started g g' : lobby_step g g' → started g' = started g.
Proof.
  intros [playerId uname socket _ Hj|playerId by_ Hk|socket Hd].
  - unfold session_join in Hj. do 2 open_guard Hj. by injection Hj as <-.
  - by apply session_kick_Some in Hk as (_ & _ & ->).
  - unfold disconnect_game in Hd. open_bind Hd il Hf.
    destruct il as [idx leaver].
    destruct (delete idx (players g)) as [|p0 rest];
      [|destruct (bool_decide (pid leaver = hostId g))];
      by injection Hd as <-.
Qed.

Lemma lobby_rtc_started g g' : rtc lobby_step g g' → started g' = started g.
Proof.
  intros Hsteps. induction Hsteps as [|x y z Hstep _ IH]; [done|].
  rewrite IH. by apply lobby_step_started.
Qed.

(** C10, as amended.  A kick is accepted exactly when it is sent under
    [hostId] in a session not started; it removes every player bearing the
    given identifier, whoever that is, the host included, keeps the others,
    and leaves [hostId] as it was.  After the host has kicked himself, and
    through any later joins, kicks and disconnects, [hostId] names no
    player of the list, and a start or a kick is rejected unless it is sent
    under that stale identifier: every such action by a player of the list
    is rejected, while under the stale identifier a kick is accepted, and a
    start is too once two players are present. *)
Theorem C10_host_self_kick (g : GameState) (by_ : string) (g1 g2 : GameState) :
  session_kick g (hostId g) by_ = Some g1 →
  rtc lobby_step g1 g2 →
  (∀ g0 playerId by',
     is_Some (session_kick g0 playerId by') ↔
     hostId g0 = by' ∧ started g0 = false) ∧
  (∀ g0 playerId by' g',
     session_kick g0 playerId by' = Some g' →
     players g' = filter (λ p, pid p ≠ playerId) (players g0) ∧
     (∀ p, p ∈ players g' ↔ p ∈ players g0 ∧ pid p ≠ playerId) ∧
     hostId g' = hostId g0) ∧
  players g1 = filter (λ p, pid p ≠ hostId g) (players g) ∧
  hostId g2 = hostId g ∧
  (∀ p, p ∈ players g2 → pid p ≠ hostId g2) ∧
  (∀ rand by', by' ≠ hostId g → game_start rand g2 by' = None) ∧
  (∀ playerId by', by' ≠ hostId g → session_kick g2 playerId by' = None) ∧
  (∀ rand p playerId, p ∈ players g2 →
     game_start rand g2 (pid p) = None ∧
     session_kick g2 playerId (pid p) = None) ∧
  (∀ playerId, is_Some (session_kick g2 playerId (hostId g))) ∧
  (∀ rand, 2 ≤ length (players g2) →
     is_Some (game_start rand g2 (hostId g))).
Proof.
  intros Hkick1 Hsteps.
  assert (∀ g0 playerId by',
            is_Some (session_kick g0 playerId by') ↔
            hostId g0 = by' ∧ started g0 = false) as Hiff.
  { intros g0 playerId by'. split.
    - intros [g' (? & ? & _)%session_kick_Some]. done.
    - intros [? ?]. eexists. apply session_kick_Some. by split_and!. }
  assert (∀ g0 playerId by' g',
            session_kick g0 playerId by' = Some g' →
            players g' = filter (λ p, pid p ≠ playerId) (players g0) ∧
            (∀ p, p ∈ players g' ↔ p ∈ players g0 ∧ pid p ≠ playerId) ∧
            hostId g' = hostId g0) as Hany.
  { intros g0 playerId by' g' (_ & _ & ->)%session_kick_Some. simpl.
    split_and!; try done. intros p. rewrite list_elem_of_filter. tauto. }
  apply session_kick_Some in Hkick1 as (Hby & Hst & ->).
  assert (hostless (hostId g) g2) as [Hh Hno].
  { eapply hostless_rtc; [|exact Hsteps]. split; [done|]. simpl.
    intros p [Hp _]%list_elem_of_filter. done. }
  assert (started g2 = false) as Hst2.
  { by rewrite (lobby_rtc_started _ _ Hsteps). }
  assert (∀ rand by', by' ≠ hostId g → game_start rand g2 by' = None) as Hstart.
  { intros rand by' Hne. destruct (game_start rand g2 by') as [g3|] eqn:E; [|done].
    unfold game_start in E. do 3 open_guard E. congruence. }
  assert (∀ playerId by', by' ≠ hostId g → session_kick g2 playerId by' = None)
    as Hkick.
  { intros playerId by' Hne.
    destruct (session_kick g2 playerId by') as [g3|] eqn:E; [|done].
    apply session_kick_Some in E as (E & _). congruence. }
  split_and!; try done.
  - intros p Hp. rewrite Hh. by apply Hno.
  - intros rand p playerId Hp. specialize (Hno p Hp). split; auto.
  - intros playerId. by apply Hiff.
  - intros rand Hlen. unfold game_start.
    rewrite !option_guard_True by done. by eexists.
Qed.

Lemma C10_host_self_kick_witness :
  ∃ g1 g2,
    session_kick lobby3 (hostId lobby3) "p1" = Some g1 ∧
    session_join g1 "p4" "Dan" "k4" = Some g2 ∧
    pid <$> players g2 = ["p2"; "p3"; "p4"] ∧
    hostId g2 = "p1" ∧
    (∀ p, p ∈ players g2 → pid p ≠ hostId g2) ∧
    (∀ rand p playerId, p ∈ players g2 →
       game_start rand g2 (pid p) = None ∧
       session_kick g2 playerId (pid p) = None).
Proof.
  destruct (session_kick lobby3 (hostId lobby3) "p1") as [g1|] eqn:Hk;
    [|by vm_compute in Hk].
  destruct (session_join g1 "p4" "Dan" "k4") as [g2|] eqn:Hj;
    [|vm_compute in Hk; injection Hk as <-; by vm_compute in Hj].
  assert (rtc lobby_step g1 g2) as Hsteps.
  { apply rtc_once. eapply lobby_join; [|exact Hj].
    vm_compute in Hk. injection Hk as <-. by vm_compute. }
  destruct (C10_host_self_kick lobby3 "p1" g1 g2 Hk Hsteps)
    as (_ & _ & _ & Hh & Hno & _ & _ & Hrej & _).
  exists g1, g2. split; [done|]. split; [done|].
  split; [|split; [exact Hh|split; [exact Hno|exact Hrej]]].
  vm_compute in Hk. injection Hk as <-. vm_compute in Hj. injection Hj as <-.
  reflexivity.
Defined.

(** Counterexample to C10 as the specification states it: after the host p1
    has kicked himself, a start and a kick sent under the identifier p1 are
    both accepted. *)
Lemma C10_counterexample :
  ∃ g1 g2 g3,
    session_kick lobby3 "p1" "p1" = Some g1 ∧
    hostId g1 = "p1" ∧
    pid <$> players g1 = ["p2"; "p3"] ∧
    game_start zeros g1 "p1" = Some g2 ∧
    started g2 = true ∧
    (length ∘ hand) <$> players g2 = [26; 26] ∧
    session_kick g1 "p3" "p1" = Some g3 ∧
    pid <$> players g3 = ["p2"].
Proof.
  do 3 eexists. split; [vm_compute; reflexivity|].
  split; [reflexivity|]. split; [reflexivity|].
  split; [vm_compute; reflexivity|].
  split; [reflexivity|]. split; [vm_compute; reflexivity|].
  split; [vm_compute; reflexivity|]. reflexivity.
Qed.

(** * Further properties of the server *)

(** ** Ranks and cards *)

(** X1.  [nextRank] walks the thirteen ranks in a single cycle: the king
    is followed by the ace, thirteen steps lead back to the rank one started
    from, and no fewer do. *)
Theorem nextRank_cycle (r : CardRank) :
  nextRank RK = RA ∧
  Nat.iter 13 nextRank r = r ∧
  ∀ k, 0 < k < 13 → Nat.iter k nextRank r ≠ r.
Proof.
  split; [reflexivity|]. split; [by destruct r|].
  intros k [Hlo Hhi].
  do 13 (destruct k as [|k];
         [first [lia | destruct r; vm_compute; discriminate]|]).
  lia.
Qed.

(** X2.  Rendering a card as rank followed by suit loses nothing: two
    cards with the same string are the same card, and a card's string
    starts with a rank's string exactly when the card has that rank (so
    the ten is not mistaken for any other rank, nor any other for it). *)
Theorem card_str_faithful (c1 c2 : Card) (r : CardRank) :
  (card_str c1 = card_str c2 ↔ c1 = c2) ∧
  (startsWith (card_str c1) (rank_str r) = true ↔ rank c1 = r).
Proof.
  split; [|apply startsWith_rank].
  split; [apply card_str_inj|by intros ->].
Qed.

(** ** Deck count and play limit *)

(** X3.  For a positive divisor, and arguments in the range where the
    arithmetic on doubles is exact ([a + b ≤ 2^53]), [ceilDiv a b] is the
    least number of groups of [b] that hold [a]. *)
Theorem ceilDiv_least (a b : nat) :
  0 < b →
  (Z.of_nat a + Z.of_nat b ≤ 2 ^ 53)%Z →
  a ≤ ceilDiv a b * b ∧ ∀ q, a ≤ q * b → ceilDiv a b ≤ q.
Proof.
  intros Hb _. unfold ceilDiv.
  pose proof (Nat.div_mod_eq (a + b - 1) b) as E.
  pose proof (Nat.mod_upper_bound (a + b - 1) b ltac:(lia)) as B.
  split; [nia|].
  intros q Hq. apply Nat.lt_succ_r, Nat.Div0.div_lt_upper_bound. nia.
Qed.

Lemma ceilDiv_least_witness :
  0 < 5 ∧ (Z.of_nat 7 + Z.of_nat 5 ≤ 2 ^ 53)%Z ∧
  7 ≤ ceilDiv 7 5 * 5 ∧ ∀ q, 7 ≤ q * 5 → ceilDiv 7 5 ≤ q.
Proof.
  assert (Z.of_nat 7 + Z.of_nat 5 ≤ 2 ^ 53)%Z as Hr by (vm_compute; discriminate).
  split; [lia|]. split; [exact Hr|]. apply (ceilDiv_least 7 5); [lia|exact Hr].
Defined.

(** X4.  The number of cards playable in one turn is four per deck: 4 for
    up to five players (an empty list included, where the floor of one deck
    applies), 8 for six to ten, and it never decreases when players are
    added. *)
Theorem getMaxSelectable_bounds (ps qs : list PlayerState) :
  (length ps ≤ 5 → getMaxSelectable ps = 4) ∧
  (5 < length ps ≤ 10 → getMaxSelectable ps = 8) ∧
  (length ps ≤ length qs → getMaxSelectable ps ≤ getMaxSelectable qs) ∧
  getMaxSelectable ps = 4 * numDecksFor ps.
Proof.
  unfold getMaxSelectable, numDecksFor, ceilDiv.
  pose proof (Nat.div_mod_eq (length ps + 5 - 1) 5) as E1.
  pose proof (Nat.mod_upper_bound (length ps + 5 - 1) 5 ltac:(lia)) as B1.
  pose proof (Nat.div_mod_eq (length qs + 5 - 1) 5) as E2.
  pose proof (Nat.mod_upper_bound (length qs + 5 - 1) 5 ltac:(lia)) as B2.
  split_and!; lia.
Qed.

(** ** What the handlers change *)

Lemma session_join_Some g playerId uname socket g' :
  session_join g playerId uname socket = Some g' ↔
  started g = false ∧ length (players g) < 10 ∧
  g' = mkGame (gid g) (players g ++ [mkPlayer playerId uname socket [] false])
         (hostId g) (started g) (currentTurnIndex g) (currentRequiredRank g)
         (pileFaceDown g) (lastPlay g) (bsWindowUntil g)
         (peanutButterEligiblePlayerId g) (hasNextPlayerPlayedAfterLiar g).
Proof.
  unfold session_join. split.
  - intros H. do 2 open_guard H. injection H as <-. done.
  - intros (Hst & Hlen & ->). by rewrite !option_guard_True.
Qed.

Lemma game_start_Some rand g by_ g' :
  game_start rand g by_ = Some g' ↔
  started g = false ∧ 2 ≤ length (players g) ∧ hostId g = by_ ∧
  g' = let ps := dealHands rand (set_hand [] <$> players g) (hostId g) in
       mkGame (gid g) ps (hostId g) true
         (Z.to_nat ((findIndex (λ p, pid p = hostId g) ps + 1)
                      `rem` Z.of_nat (length ps)))
         RA [] None None None (Some false).
Proof.
  unfold game_start. split.
  - intros H. do 3 open_guard H. injection H as <-. done.
  - intros (Hst & Hlen & Hh & ->). by rewrite !option_guard_True.
Qed.

(** The list a disconnect leaves: the player at [idx] is gone, and when
    that player was the host the new first player is flagged host. *)
Lemma disconnect_game_Some g socket g' :
  disconnect_game g socket = Some g' ↔
  ∃ idx leaver,
    find (λ p, socketId p = socket) (players g) = Some (idx, leaver) ∧
    g' = match delete idx (players g) with
         | p0 :: rest =>
             if bool_decide (pid leaver = hostId g)
             then mkGame (gid g) (set_isHost true p0 :: rest) (pid p0)
                    (started g) (currentTurnIndex g) (currentRequiredRank g)
                    (pileFaceDown g) (lastPlay g) (bsWindowUntil g)
                    (peanutButterEligiblePlayerId g)
                    (hasNextPlayerPlayedAfterLiar g)
             else mkGame (gid g) (p0 :: rest) (hostId g)
                    (started g) (currentTurnIndex g) (currentRequiredRank g)
                    (pileFaceDown g) (lastPlay g) (bsWindowUntil g)
                    (peanutButterEligiblePlayerId g)
                    (hasNextPlayerPlayedAfterLiar g)
         | [] => mkGame (gid g) [] (hostId g)
                    (started g) (currentTurnIndex g) (currentRequiredRank g)
                    (pileFaceDown g) (lastPlay g) (bsWindowUntil g)
                    (peanutButterEligiblePlayerId g)
                    (hasNextPlayerPlayedAfterLiar g)
         end.
Proof.
  unfold disconnect_game. split.
  - intros H. open_bind H il Hf. destruct il as [idx leaver].
    exists idx, leaver. split; [done|].
    destruct (delete idx (players g)) as [|p0 rest].
    + by injection H as <-.
    + destruct (bool_decide (pid leaver = hostId g)); by injection H as <-.
  - intros (idx & leaver & Hf & ->). rewrite Hf. simpl.
    destruct (delete idx (players g)) as [|p0 rest]; [done|].
    by destruct (bool_decide (pid leaver = hostId g)).
Qed.

(** *** Hands change, players do not *)

Lemma ident_alter_push cs i (ps : list PlayerState) :
  ident <$> alter (push_hand cs) i ps = ident <$> ps.
Proof.
  revert i. induction ps as [|p ps IH]; intros [|i]; simpl; try done.
  f_equal. apply IH.
Qed.

Lemma ident_insert_set_hand (ps : list PlayerState) k p h :
  ps !! k = Some p → ident <$> <[k := set_hand h p]> ps = ident <$> ps.
Proof.
  revert k. induction ps as [|a ps IH]; intros [|k] Hk; simplify_eq/=; try done.
  f_equal. by apply IH.
Qed.

Lemma ident_cleared (ps : list PlayerState) : ident <$> (set_hand [] <$> ps) = ident <$> ps.
Proof. rewrite <-list_fmap_compose. by apply list_fmap_ext. Qed.

Lemma ident_deal_loop s i rdeck ps :
  ident <$> deal_loop s i rdeck ps = ident <$> ps.
Proof.
  revert i ps. induction rdeck as [|c l IH]; intros i ps; simpl; [done|].
  by rewrite IH, ident_alter_push.
Qed.

Lemma ident_dealHands rand ps dealerId :
  ident <$> dealHands rand (set_hand [] <$> ps) dealerId = ident <$> ps.
Proof. unfold dealHands. by rewrite ident_deal_loop, ident_cleared. Qed.

(** Two lists with the same [ident]s have the same identifiers, and each
    player of one has a counterpart in the other. *)
Lemma ident_pids (ps ps' : list PlayerState) : ident <$> ps' = ident <$> ps → pid <$> ps' = pid <$> ps.
Proof.
  intros H. apply (f_equal (fmap (λ x : string * string * string * bool, x.1.1.1))) in H.
  by rewrite <-!list_fmap_compose in H.
Qed.

Lemma ident_length (ps ps' : list PlayerState) : ident <$> ps' = ident <$> ps → length ps' = length ps.
Proof. intros H. apply (f_equal length) in H. by rewrite !length_fmap in H. Qed.

Lemma ident_elem (ps ps' : list PlayerState) p' :
  ident <$> ps' = ident <$> ps → p' ∈ ps' → ∃ p, p ∈ ps ∧ ident p = ident p'.
Proof.
  intros H Hp'.
  assert (ident p' ∈ ident <$> ps) as Hin.
  { rewrite <-H. by apply list_elem_of_fmap_2. }
  apply list_elem_of_fmap in Hin as (p & Hp & Hin). by exists p.
Qed.

Lemma ident_lookup (ps ps' : list PlayerState) k p' :
  ident <$> ps' = ident <$> ps → ps' !! k = Some p' →
  ∃ p, ps !! k = Some p ∧ ident p = ident p'.
Proof.
  intros H Hk.
  assert ((ident <$> ps) !! k = Some (ident p')) as Hl.
  { by rewrite <-H, list_lookup_fmap, Hk. }
  apply list_lookup_fmap_Some in Hl as (p & Hp & Hl). by exists p.
Qed.

(** Every accepted event of a round, and the start, keep the players and
    their order, identifiers, names, sockets and host flags. *)
Lemma handle_ident g e g' :
  handle g e = Some g' →
  match e with EvDisconnect _ => True
          | _ => ident <$> players g' = ident <$> players g end.
Proof.
  destruct e; simpl; [| | | |done].
  - intros (_ & _ & _ & ->)%game_start_Some. apply ident_dealHands.
  - intros (_ & current & k & player & _ & _ & Hk & _ & _ & _ & ->)%game_play_Some.
    apply find_Some_lookup in Hk as [Hk _]. by apply ident_insert_set_hand.
  - intros (_ & lp & deadline & i & lastPlayer & j & caller &
            _ & _ & _ & _ & _ & _ & ->)%game_bs_Some. apply ident_alter_push.
  - intros (_ & _ & _ & _ & lp & i & lastPlayer & _ & _ & ->)
      %game_peanutButter_Some. apply ident_alter_push.
Qed.

(** ** The invariant of a session *)

Lemma remove_cards_pile cards h pile :
  (remove_cards cards h pile).2 = pile ++ cards.
Proof.
  revert h pile. induction cards as [|c cs IH]; intros h pile; simpl.
  - by rewrite app_nil_r.
  - by rewrite IH, <-app_assoc.
Qed.

Lemma NoDup_pid_eq (ps : list PlayerState) p q :
  NoDup (pid <$> ps) → p ∈ ps → q ∈ ps → pid p = pid q → p = q.
Proof.
  intros Hnd [i Hi]%list_elem_of_lookup [j Hj]%list_elem_of_lookup Hpq.
  assert (i = j) as ->; [|congruence].
  eapply (NoDup_lookup (pid <$> ps)); [done| |].
  - by rewrite list_lookup_fmap, Hi.
  - rewrite list_lookup_fmap, Hj. simpl. by rewrite Hpq.
Qed.

Lemma Forall_elems {A} (P : A → Prop) (l l' : list A) :
  (∀ x, x ∈ l' → x ∈ l) → Forall P l → Forall P l'.
Proof. rewrite !list.Forall_forall. auto. Qed.

Lemma sublist_elem {A} (l l' : list A) x : l' `sublist_of` l → x ∈ l' → x ∈ l.
Proof. intros Hs Hx. eapply elem_of_submseteq; [exact Hx|]. by apply sublist_submseteq. Qed.

Lemma session_inv_create sessionId playerId uname socket :
  session_inv (session_create sessionId playerId uname socket).
Proof.
  split; simpl; try done.
  - lia.
  - apply NoDup_singleton.
  - intros p ->%list_elem_of_singleton. done.
  - intros _. split_and!; try done. by repeat constructor.
Qed.

Lemma session_inv_join g playerId uname socket g' :
  session_inv g →
  playerId ∉ pid <$> players g → playerId ≠ hostId g →
  session_join g playerId uname socket = Some g' →
  session_inv g'.
Proof.
  intros [Hcap Hids Hhost Hcount Hactor Hsettled Hlobby] Hfresh Hnh
    (Hst & Hlen & ->)%session_join_Some.
  destruct (Hlobby Hst) as (Hhands & Hpile & Hlp & Hwin).
  split; simpl; try done.
  - rewrite length_app. simpl. lia.
  - rewrite fmap_app. simpl. apply list.NoDup_app.
    split_and!; [done| |apply NoDup_singleton].
    intros x Hx ->%list_elem_of_singleton. done.
  - intros p [Hp|Hp]%elem_of_app; [by apply Hhost|].
    apply list_elem_of_singleton in Hp as ->.
    simpl. split; [done|]. intros Heq. by destruct Hnh.
  - rewrite Hlp. done.
  - intros _. split_and!; try done. apply list.Forall_app.
    split; [done|]. by repeat constructor.
Qed.

Lemma session_inv_kick g playerId by_ g' :
  session_inv g → session_kick g playerId by_ = Some g' → session_inv g'.
Proof.
  intros [Hcap Hids Hhost Hcount Hactor Hsettled Hlobby]
    (Hby & Hst & ->)%session_kick_Some.
  destruct (Hlobby Hst) as (Hhands & Hpile & Hlp & Hwin).
  assert (filter (λ p, pid p ≠ playerId) (players g) `sublist_of` players g)
    as Hsub by apply sublist_filter.
  split; simpl; try done.
  - apply sublist_length in Hsub. lia.
  - apply (sublist_NoDup _ (pid <$> players g)); [done|by apply fmap_sublist].

  - intros p [_ Hp]%list_elem_of_filter. by apply Hhost.
  - rewrite Hlp. done.
  - intros _. split_and!; try done.
    eapply Forall_elems; [|exact Hhands]. intros x. by apply sublist_elem.
Qed.

(** The parts of the invariant that speak of the players only carry over
    to a list with the same [ident]s. *)
Lemma session_inv_players (ps ps' : list PlayerState) h :
  ident <$> ps' = ident <$> ps →
  length ps ≤ 10 → NoDup (pid <$> ps) →
  (∀ p, p ∈ ps → isHost p = true ↔ pid p = h) →
  length ps' ≤ 10 ∧ NoDup (pid <$> ps') ∧
  (∀ p, p ∈ ps' → isHost p = true ↔ pid p = h).
Proof.
  intros Hid Hcap Hids Hhost. split_and!.
  - by rewrite (ident_length _ _ Hid).
  - by rewrite (ident_pids _ _ Hid).
  - intros p' (p & Hp & Hpp)%(ident_elem _ _ _ Hid).
    injection Hpp as Hpid _ _ Hh. rewrite <-Hpid, <-Hh. by apply Hhost.
Qed.

Lemma session_inv_start rand g by_ g' :
  session_inv g → game_start rand g by_ = Some g' → session_inv g'.
Proof.
  intros [Hcap Hids Hhost _ _ _ _] H.
  pose proof (handle_ident g (EvStart rand by_) g' H) as Hid. simpl in Hid.
  apply game_start_Some in H as (_ & _ & _ & ->). simpl in *.
  destruct (session_inv_players _ _ _ Hid Hcap Hids Hhost) as (? & ? & ?).
  split; simpl; done.
Qed.

Lemma session_inv_play g by_ cards claimed now g' :
  session_inv g → game_play g by_ cards claimed now = Some g' → session_inv g'.
Proof.
  intros [Hcap Hids Hhost _ _ _ _] H.
  pose proof (handle_ident g (EvPlay by_ cards claimed now) g' H) as Hid.
  simpl in Hid.
  apply game_play_Some in H
    as (Hst & current & k & player & Hc & Hcur & Hk & H1 & Hmax & Hown & ->).
  simpl in *.
  destruct (session_inv_players _ _ _ Hid Hcap Hids Hhost) as (? & ? & ?).
  apply find_Some_lookup in Hk as [Hk Hp].
  split; simpl; try done.
  - intros lp [= <-]. simpl. rewrite remove_cards_pile, length_app. lia.
  - intros lp [= <-]. simpl. eexists. split; [done|].
    intros p' (p & Hin & Hpp)%(ident_elem _ _ _ Hid) Hpid.
    injection Hpp as Hpid' Hname _ _. rewrite <-Hname. f_equal.
    apply (NoDup_pid_eq (players g)); try done.
    + by eapply list_elem_of_lookup_2.
    + congruence.
  - by rewrite Hst.
Qed.

Lemma session_inv_bs g by_ now g' :
  session_inv g → game_bs g by_ now = Some g' → session_inv g'.
Proof.
  intros [Hcap Hids Hhost _ _ _ _] H.
  pose proof (handle_ident g (EvBs by_ now) g' H) as Hid. simpl in Hid.
  apply game_bs_Some in H
    as (Hst & lp & deadline & i & lastPlayer & j & caller &
        _ & _ & _ & _ & _ & _ & ->).
  simpl in *.
  destruct (session_inv_players _ _ _ Hid Hcap Hids Hhost) as (? & ? & ?).
  split; simpl; try done. by rewrite Hst.
Qed.

Lemma session_inv_peanutButter g by_ g' :
  session_inv g → game_peanutButter g by_ = Some g' → session_inv g'.
Proof.
  intros [Hcap Hids Hhost _ _ _ _] H.
  pose proof (handle_ident g (EvPeanutButter by_) g' H) as Hid. simpl in Hid.
  apply game_peanutButter_Some in H
    as (Hst & _ & _ & _ & lp & i & lastPlayer & _ & _ & ->).
  simpl in *.
  destruct (session_inv_players _ _ _ Hid Hcap Hids Hhost) as (? & ? & ?).
  split; simpl; try done. by rewrite Hst.
Qed.

Lemma session_inv_disconnect g socket g' :
  session_inv g → disconnect_game g socket = Some g' → session_inv g'.
Proof.
  intros [Hcap Hids Hhost Hcount Hactor Hsettled Hlobby]
    (idx & leaver & Hf & ->)%disconnect_game_Some.
  apply find_Some_lookup in Hf as [Hl _].
  pose proof (delete_Permutation _ _ _ Hl) as Hperm.
  pose proof (sublist_delete (players g) idx) as Hsub.
  assert (length (delete idx (players g)) ≤ 10) as Hcap'.
  { apply sublist_length in Hsub. lia. }
  assert (NoDup (pid <$> delete idx (players g)) ∧
          pid leaver ∉ pid <$> delete idx (players g)) as [Hids' Hfresh].
  { rewrite Hperm in Hids. simpl in Hids. apply list.NoDup_cons in Hids. tauto. }
  assert (∀ p, p ∈ delete idx (players g) → p ∈ players g) as Hin.
  { intros p. by apply sublist_elem. }
  assert (∀ p, p ∈ delete idx (players g) → pid p ≠ pid leaver) as Hne.
  { intros p Hp Heq. apply Hfresh. rewrite <-Heq. by apply list_elem_of_fmap_2. }
  destruct (delete idx (players g)) as [|p0 rest] eqn:Hdel.
  { split; simpl; try done.
    - intros p Hp. by apply not_elem_of_nil in Hp.
    - intros lp Hlp. destruct (Hactor lp Hlp) as (e & He & _).
      exists e. split; [done|]. intros p Hp. by apply not_elem_of_nil in Hp.
    - intros Hst. destruct (Hlobby Hst) as (_ & ? & ? & ?). by split_and!. }
  case_bool_decide as Hwas.
  - (* the host left: the new first player is promoted *)
    split; simpl; try done.
    + intros p [->|Hp]%elem_of_cons; simpl; [done|].
      assert (pid p ≠ pid p0).
      { intros Heq. simpl in Hids'. apply list.NoDup_cons in Hids' as [Hp0 _].
        apply Hp0. rewrite <-Heq. by apply list_elem_of_fmap_2. }
      assert (isHost p = true ↔ pid p = hostId g) as Hh.
      { apply Hhost, Hin. by right. }
      assert (pid p ≠ hostId g).
      { rewrite <-Hwas. apply Hne. by right. }
      split; [|done]. intros Ht. by apply Hh in Ht.
    + intros lp Hlp. destruct (Hactor lp Hlp) as (e & He & Hname).
      exists e. split; [done|].
      intros p [->|Hp]%elem_of_cons; simpl.
      * apply (Hname p0). apply Hin. by left.
      * apply Hname, Hin. by right.
    + intros Hst. destruct (Hlobby Hst) as (Hhands & ? & ? & ?).
      split_and!; try done.
      assert (Forall (λ p, hand p = []) (p0 :: rest)) as Hh.
      { eapply Forall_elems; [|exact Hhands]. done. }
      inversion Hh; subst. by constructor.
  - split; simpl; try done.
    + intros p Hp. by apply Hhost, Hin.
    + intros lp Hlp. destruct (Hactor lp Hlp) as (e & He & Hname).
      exists e. split; [done|]. intros p Hp. by apply Hname, Hin.
    + intros Hst. destruct (Hlobby Hst) as (Hhands & ? & ? & ?).
      split_and!; try done. eapply Forall_elems; [|exact Hhands]. done.
Qed.

Lemma session_inv_step g g' :
  session_inv g → session_step g g' → session_inv g'.
Proof.
  intros Hinv [playerId uname socket Hfresh Hnh Hj|playerId by_ Hk|e He].
  - by eapply session_inv_join.
  - by eapply session_inv_kick.
  - destruct e; simpl in He.
    + by eapply session_inv_start.
    + by eapply session_inv_play.
    + by eapply session_inv_bs.
    + by eapply session_inv_peanutButter.
    + by eapply session_inv_disconnect.
Qed.

Lemma session_inv_reachable g : reachable g → session_inv g.
Proof.
  intros (sessionId & playerId & uname & socket & Hsteps).
  revert g Hsteps. apply rtc_ind_r.
  - apply session_inv_create.
  - intros y z _ Hstep IH. by eapply session_inv_step.
Qed.

(** ** Sessions that exist *)

Lemma reachable_create sessionId playerId uname socket :
  reachable (session_create sessionId playerId uname socket).
Proof. exists sessionId, playerId, uname, socket. apply rtc_refl. Qed.

Lemma reachable_step g g' : reachable g → session_step g g' → reachable g'.
Proof.
  intros (sessionId & playerId & uname & socket & Hsteps) Hstep.
  exists sessionId, playerId, uname, socket. by eapply rtc_r.
Qed.

Lemma reachable_started2 : reachable started2.
Proof.
  eapply (reachable_step lobby2).
  - eapply (reachable_step lobby1); [apply reachable_create|].
    eapply (step_join _ _ "pA" "Alice" "kA"); [|done|reflexivity].
    intros Hin%list_elem_of_In. simpl in Hin. intuition discriminate.
  - apply (step_event _ _ (EvStart zeros "pB")). vm_compute. reflexivity.
Qed.

Lemma reachable_afterP1 : reachable afterP1.
Proof.
  eapply reachable_step; [apply reachable_started2|].
  apply (step_event _ _ (EvPlay "pA" [AS] R5 1000)). vm_compute. reflexivity.
Qed.

Lemma reachable_afterP2 : reachable afterP2.
Proof.
  eapply reachable_step; [apply reachable_afterP1|].
  apply (step_event _ _ (EvPlay "pB" [KC] R6 9000)). vm_compute. reflexivity.
Qed.

(** X5.  A session never holds more than ten players, so at most eight
    cards can ever be played in one turn. *)
Theorem reachable_player_cap (g : GameState) :
  reachable g →
  length (players g) ≤ 10 ∧ getMaxSelectable (players g) ≤ 8.
Proof.
  intros [Hcap _ _ _ _ _ _]%session_inv_reachable. split; [done|].
  unfold getMaxSelectable, numDecksFor, ceilDiv.
  pose proof (Nat.div_mod_eq (length (players g) + 5 - 1) 5).
  pose proof (Nat.mod_upper_bound (length (players g) + 5 - 1) 5 ltac:(lia)).
  lia.
Qed.

Lemma reachable_player_cap_witness :
  length (players afterP2) ≤ 10 ∧ getMaxSelectable (players afterP2) ≤ 8.
Proof. apply (reachable_player_cap afterP2), reachable_afterP2. Defined.

(** X6.  In every session the player identifiers are pairwise distinct,
    and a player is flagged host exactly when [hostId] is that player's
    identifier; so at most one player is flagged, through joins, kicks,
    the deal, plays, settlements and the host's departure. *)
Theorem reachable_host_flag (g : GameState) :
  reachable g →
  NoDup (pid <$> players g) ∧
  (∀ p, p ∈ players g → isHost p = true ↔ pid p = hostId g) ∧
  (∀ p q, p ∈ players g → q ∈ players g →
     isHost p = true → isHost q = true → p = q).
Proof.
  intros [_ Hids Hhost _ _ _ _]%session_inv_reachable. split_and!; try done.
  intros p q Hp Hq Hhp Hhq. apply (NoDup_pid_eq (players g)); try done.
  apply Hhost in Hhp, Hhq; try done. congruence.
Qed.

Lemma reachable_host_flag_witness :
  NoDup (pid <$> players afterP2) ∧
  (∀ p, p ∈ players afterP2 → isHost p = true ↔ pid p = hostId afterP2) ∧
  (∀ p q, p ∈ players afterP2 → q ∈ players afterP2 →
     isHost p = true → isHost q = true → p = q).
Proof. apply (reachable_host_flag afterP2), reachable_afterP2. Defined.

(** X7.  A session that has not been started is clean: every hand is
    empty, the pile is empty, and no play, deadline or eligibility is
    recorded.  Once started a session stays started, whatever happens. *)
Theorem lobby_clean_started_forever (g g' : GameState) :
  reachable g →
  (started g = false →
     Forall (λ p, hand p = []) (players g) ∧ pileFaceDown g = [] ∧
     lastPlay g = None ∧ bsWindowUntil g = None ∧
     peanutButterEligiblePlayerId g = None) ∧
  (session_step g g' → started g = true → started g' = true).
Proof.
  intros [_ _ _ _ _ Hsettled Hlobby]%session_inv_reachable. split.
  - intros Hst. destruct (Hlobby Hst) as (? & ? & Hlp & ?).
    destruct (Hsettled Hlp) as [? _]. by split_and!.
  - intros [playerId uname socket _ _ Hj|playerId by_ Hk|e He] Hst.
    + apply session_join_Some in Hj as (? & _). congruence.
    + apply session_kick_Some in Hk as (_ & ? & _). congruence.
    + destruct e; simpl in He.
      * apply game_start_Some in He as (_ & _ & _ & ->). done.
      * apply game_play_Some in He as (_ & ? & ? & ? & _ & _ & _ & _ & _ & _ & ->).
        done.
      * apply game_bs_Some in He
          as (_ & ? & ? & ? & ? & ? & ? & _ & _ & _ & _ & _ & _ & ->). done.
      * apply game_peanutButter_Some in He
          as (_ & _ & _ & _ & ? & ? & ? & _ & _ & ->). done.
      * apply disconnect_game_Some in He as (idx & leaver & _ & ->).
        destruct (delete idx (players g)); [done|]. by case_bool_decide.
Qed.

Lemma lobby_clean_started_forever_witness :
  (started lobby2 = false →
     Forall (λ p, hand p = []) (players lobby2) ∧ pileFaceDown lobby2 = [] ∧
     lastPlay lobby2 = None ∧ bsWindowUntil lobby2 = None ∧
     peanutButterEligiblePlayerId lobby2 = None) ∧
  (session_step lobby2 started2 → started lobby2 = true → started started2 = true).
Proof.
  apply (lobby_clean_started_forever lobby2 started2).
  eapply (reachable_step lobby1); [apply reachable_create|].
  eapply (step_join _ _ "pA" "Alice" "kA"); [|done|reflexivity].
  intros Hin%list_elem_of_In. simpl in Hin. intuition discriminate.
Defined.

(** X8.  In every session with a recorded play, the declared count is at
    least one and at most the size of the pile, so the challenge inspects
    exactly that many cards, the ones on top of the pile. *)
Theorem reachable_challenge_slice (g : GameState) (lp : PlayRecord) :
  reachable g →
  lastPlay g = Some lp →
  1 ≤ count lp ∧ count lp ≤ length (pileFaceDown g) ∧
  length (slice_neg (count lp) (pileFaceDown g)) = count lp ∧
  ∃ below, pileFaceDown g = below ++ slice_neg (count lp) (pileFaceDown g).
Proof.
  intros [_ _ _ Hcount _ _ _]%session_inv_reachable Hlp.
  destruct (Hcount lp Hlp) as [H1 H2].
  rewrite slice_neg_last by done. split_and!; try done.
  - rewrite length_drop. lia.
  - exists (take (length (pileFaceDown g) - count lp) (pileFaceDown g)).
    by rewrite take_drop.
Qed.

Lemma reachable_challenge_slice_witness :
  lastPlay afterP2 = Some (mkPlay "Bob" 1 R6) ∧
  length (slice_neg 1 (pileFaceDown afterP2)) = 1.
Proof.
  split; [vm_compute; reflexivity|].
  apply (reachable_challenge_slice afterP2 (mkPlay "Bob" 1 R6));
    [apply reachable_afterP2|vm_compute; reflexivity].
Defined.

(** X9.  In every session whose display names are pairwise distinct,
    while the player who made the recorded play is still present, that
    player is the one both settlements hand the pile to: a challenged lie
    and a counter-challenge give the pile to the seat of the player named
    by [peanutButterEligiblePlayerId]. *)
Theorem reachable_pile_to_actor (g : GameState) (lp : PlayRecord)
    (k : nat) (actor : PlayerState) :
  reachable g →
  NoDup (name <$> players g) →
  lastPlay g = Some lp →
  players g !! k = Some actor →
  peanutButterEligiblePlayerId g = Some (pid actor) →
  (∀ by_ now g', game_bs g by_ now = Some g' →
     liar lp (pileFaceDown g) = true →
     players g' = alter (push_hand (pileFaceDown g)) k (players g)) ∧
  (∀ by_ g', game_peanutButter g by_ = Some g' →
     players g' = alter (push_hand (pileFaceDown g)) k (players g)).
Proof.
  intros [_ _ _ _ Hactor _ _]%session_inv_reachable Hnames Hlp Hk He.
  destruct (Hactor lp Hlp) as (e & He' & Hname).
  assert (name actor = username lp) as Hn.
  { apply Hname; [by eapply list_elem_of_lookup_2|congruence]. }
  split.
  - intros by_ now g'
      (_ & lp' & deadline & i & lastPlayer & j & caller &
       Hlp' & _ & _ & _ & Hi & _ & ->)%game_bs_Some Hliar.
    assert (lp' = lp) as -> by congruence. simpl. rewrite Hliar.
    by rewrite (find_unique_name _ _ _ _ k actor Hi Hnames Hk Hn).
  - intros by_ g'
      (_ & _ & _ & _ & lp' & i & lastPlayer & Hlp' & Hi & ->)
      %game_peanutButter_Some.
    assert (lp' = lp) as -> by congruence. simpl.
    by rewrite (find_unique_name _ _ _ _ k actor Hi Hnames Hk Hn).
Qed.

Lemma reachable_pile_to_actor_witness :
  ∃ bob,
    players afterP2 !! 0 = Some bob ∧ pid bob = "pB" ∧
    ∀ by_ g', game_peanutButter afterP2 by_ = Some g' →
      players g' = alter (push_hand (pileFaceDown afterP2)) 0 (players afterP2).
Proof.
  destruct (players afterP2 !! 0) as [bob|] eqn:Hb; [|by vm_compute in Hb].
  exists bob. split; [done|].
  assert (pid bob = "pB") as Hp by (vm_compute in Hb; by injection Hb as <-).
  split; [done|].
  apply (reachable_pile_to_actor afterP2 (mkPlay "Bob" 1 R6) 0 bob).
  - apply reachable_afterP2.
  - apply (bool_decide_unpack (NoDup (name <$> players afterP2))).
    vm_compute. exact I.
  - vm_compute. reflexivity.
  - exact Hb.
  - rewrite Hp. vm_compute. reflexivity.
Defined.

(** ** Turn and rank over a round *)

Lemma handle_round_step g e g' :
  handle g e = Some g' → in_round e →
  length (players g') = length (players g) ∧
  (if is_play e
   then currentTurnIndex g < length (players g) ∧
        currentTurnIndex g' = (currentTurnIndex g + 1) mod length (players g) ∧
        currentRequiredRank g' = nextRank (currentRequiredRank g)
   else currentTurnIndex g' = currentTurnIndex g ∧
        currentRequiredRank g' = currentRequiredRank g).
Proof.
  intros H Hr. pose proof (handle_ident g e g' H) as Hid.
  destruct e; simpl in *; try done.
  - apply ident_length in Hid. split; [done|].
    apply game_play_Some in H
      as (_ & current & k & player & Hc & _ & _ & _ & _ & _ & ->).
    simpl. rewrite length_insert. split_and!; try done.
    by eapply lookup_lt_Some.
  - apply ident_length in Hid. split; [done|].
    apply game_bs_Some in H
      as (_ & ? & ? & ? & ? & ? & ? & _ & _ & _ & _ & _ & _ & ->). done.
  - apply ident_length in Hid. split; [done|].
    apply game_peanutButter_Some in H
      as (_ & _ & _ & _ & ? & ? & ? & _ & _ & ->). done.
Qed.

(** X10.  Over any run of accepted plays, challenges and
    counter-challenges the player list keeps its length; with [k] plays in
    the run, the required rank has moved [k] steps along the cycle, whatever
    ranks were claimed, and the turn pointer [k] seats around the table.
    Challenges and counter-challenges move neither. *)
Theorem run_round_progress (es : list GameEvent) (g g' : GameState) :
  run g es = Some g' →
  Forall in_round es →
  currentTurnIndex g < length (players g) →
  let k := length (filter (λ e, is_play e = true) es) in
  length (players g') = length (players g) ∧
  currentRequiredRank g' = Nat.iter k nextRank (currentRequiredRank g) ∧
  currentTurnIndex g' = (currentTurnIndex g + k) mod length (players g).
Proof.
  revert g. induction es as [|e es IH]; intros g Hrun Hall Hturn; simpl in *.
  - injection Hrun as <-. split_and!; try done.
    rewrite Nat.add_0_r. symmetry. by apply Nat.mod_small.
  - destruct (handle g e) as [g1|] eqn:He; [simpl in Hrun|done].
    inversion Hall as [|?? Hr Hall']; subst.
    destruct (handle_round_step g e g1 He Hr) as [Hlen Hstep].
    rewrite filter_cons. destruct (is_play e) eqn:Hp.
    + destruct Hstep as (_ & Ht & Hrank).
      rewrite decide_True by done. simpl.
      destruct (IH g1 Hrun Hall') as (Hl & Hr' & Ht').
      { rewrite Hlen, Ht. apply Nat.mod_upper_bound. lia. }
      split_and!.
      * congruence.
      * rewrite Hr', Hrank. by rewrite <-Nat.iter_succ_r.
      * rewrite Ht', Hlen, Ht, Nat.Div0.add_mod_idemp_l. f_equal. lia.
    + destruct Hstep as (Ht & Hrank).
      rewrite decide_False by done.
      destruct (IH g1 Hrun Hall') as (Hl & Hr' & Ht').
      { by rewrite Hlen, Ht. }
      split_and!; congruence.
Qed.

Lemma run_round_progress_witness :
  (λ g', (currentRequiredRank g', currentTurnIndex g')) <$>
    run started2 [EvPlay "pA" [AS] R5 1000; EvPlay "pB" [KC] R6 9000;
                  EvPeanutButter "pB"]
  = Some (R3, 1).
Proof.
  destruct (run started2 [EvPlay "pA" [AS] R5 1000; EvPlay "pB" [KC] R6 9000;
                          EvPeanutButter "pB"]) as [g'|] eqn:Hrun;
    [|by vm_compute in Hrun].
  destruct (run_round_progress _ started2 g' Hrun) as (_ & Hr & Ht).
  - repeat constructor.
  - vm_compute. lia.
  - simpl. rewrite Hr, Ht. vm_compute. reflexivity.
Defined.

(** ** What a play does to the cards *)

Lemma splice1_length {A} (idx : Z) (l : list A) :
  (-1 ≤ idx < Z.of_nat (length l))%Z →
  length (splice1 idx l) = length l - 1.
Proof.
  intros Hidx. unfold splice1. destruct l as [|x l]; [done|].
  rewrite length_delete; [done|]. apply lookup_lt_is_Some_2.
  destruct (Z.ltb_spec idx 0); simpl in *; lia.
Qed.

Lemma indexOf_range (c : Card) (h : list Card) :
  (-1 ≤ indexOf c h < Z.of_nat (length h) ∨ (h = [] ∧ indexOf c h = -1))%Z.
Proof.
  unfold indexOf, findIndex.
  destruct (list_find (λ y, y = c) h) as [[i x]|] eqn:Hf.
  - left. apply list_find_Some in Hf as (Hi%lookup_lt_Some & _). lia.
  - destruct h; [by right|left]. simpl. lia.
Qed.

Lemma remove_cards_hand_length cards h pile :
  length (remove_cards cards h pile).1 = length h - length cards.
Proof.
  revert h pile. induction cards as [|c cs IH]; intros h pile; simpl; [lia|].
  rewrite IH. destruct (indexOf_range c h) as [Hr|[-> ->]].
  - rewrite splice1_length by done. lia.
  - done.
Qed.

(** X11.  An accepted play, covered or not, appends exactly the submitted
    cards to the pile, in the order submitted; the player's hand shrinks by
    the number of cards submitted (to nothing, when fewer are held), and
    the other players are left as they were. *)
Theorem game_play_cards (g : GameState) (by_ : string) (cards : list Card)
    (claimed : CardRank) (now : Z) (g' : GameState) :
  game_play g by_ cards claimed now = Some g' →
  pileFaceDown g' = pileFaceDown g ++ cards ∧
  ∃ k player player',
    find (λ p, pid p = by_) (players g) = Some (k, player) ∧
    players g' = <[k := player']> (players g) ∧
    ident player' = ident player ∧
    length (hand player') = length (hand player) - length cards.
Proof.
  intros (_ & current & k & player & _ & _ & Hk & _ & _ & _ & ->)%game_play_Some.
  simpl. split; [apply remove_cards_pile|].
  exists k, player, (set_hand (remove_cards cards (hand player) (pileFaceDown g)).1 player).
  split_and!; try done. simpl. apply remove_cards_hand_length.
Qed.

Lemma game_play_cards_witness :
  ∃ g', game_play started2 "pA" [AS; AS] R5 1000 = Some g' ∧
        pileFaceDown g' = pileFaceDown started2 ++ [AS; AS].
Proof.
  destruct (game_play started2 "pA" [AS; AS] R5 1000) as [g'|] eqn:H;
    [|by vm_compute in H].
  exists g'. split; [done|].
  by destruct (game_play_cards started2 "pA" [AS; AS] R5 1000 g' H) as [Hp _].
Defined.

(** ** Starting *)

Lemma findIndex_ident (ps ps' : list PlayerState) x :
  ident <$> ps' = ident <$> ps →
  findIndex (λ p, pid p = x) ps' = findIndex (λ p, pid p = x) ps.
Proof.
  intros Hid. unfold findIndex.
  assert (∀ l : list PlayerState,
            fst <$> list_find (λ p, pid p = x) l =
            fst <$> list_find (λ t : string * string * string * bool, t.1.1.1 = x)
                      (ident <$> l)) as Hf.
  { intros l. rewrite list_find_fmap. by destruct (list_find _ l) as [[??]|]. }
  pose proof (Hf ps) as H1. pose proof (Hf ps') as H2. rewrite Hid in H2.
  destruct (list_find _ ps) as [[??]|], (list_find _ ps') as [[??]|];
    destruct (list_find _ (ident <$> ps)) as [[??]|]; simplify_eq/=; done.
Qed.

(** X12.  An accepted start marks the session started, sets the required
    rank to the ace and clears pile, recorded play, deadline and
    eligibility; the players keep their seats and identities.  When the host
    is in the list, the first card taken from the deck goes to the player
    after the host and the turn pointer names that same player.  When no
    player bears [hostId], the first card goes to the second seat while the
    turn pointer names the first. *)
Theorem game_start_first_turn (rand : nat → nat) (g : GameState) (by_ : string)
    (g' : GameState) :
  game_start rand g by_ = Some g' →
  let n := length (players g) in
  let deck := createDeck rand (numDecksFor (players g)) in
  started g' = true ∧ currentRequiredRank g' = RA ∧ pileFaceDown g' = [] ∧
  lastPlay g' = None ∧ bsWindowUntil g' = None ∧
  peanutButterEligiblePlayerId g' = None ∧
  ident <$> players g' = ident <$> players g ∧
  ∃ c, reverse deck !! 0 = Some c ∧
    (∀ h dealer,
       find (λ p, pid p = hostId g) (players g) = Some (h, dealer) →
       currentTurnIndex g' = (h + 1) mod n ∧
       ∃ first, players g' !! currentTurnIndex g' = Some first ∧
                hand first !! 0 = Some c) ∧
    (find (λ p, pid p = hostId g) (players g) = None →
       currentTurnIndex g' = 0 ∧
       ∃ second, players g' !! (1 mod n) = Some second ∧
                 hand second !! 0 = Some c).
Proof.
  intros H n deck.
  pose proof (handle_ident g (EvStart rand by_) g' H) as Hid. simpl in Hid.
  apply game_start_Some in H as (_ & Hn2 & _ & ->). simpl in *.
  split_and!; try done.
  set (ps0 := set_hand [] <$> players g) in *.
  assert (length ps0 = n) as Hlen0 by apply length_fmap.
  assert (numDecksFor ps0 = numDecksFor (players g)) as Hd.
  { unfold numDecksFor. by rewrite Hlen0. }
  assert (length (dealHands rand ps0 (hostId g)) = n) as Hlen.
  { by apply ident_length in Hid. }
  assert (findIndex (λ p, pid p = hostId g) ps0 =
          findIndex (λ p, pid p = hostId g) (players g)) as Hfi0.
  { apply findIndex_ident, ident_cleared. }
  rewrite (findIndex_ident _ _ _ Hid), Hlen.
  assert (0 < length deck) as Hdeck.
  { unfold deck. rewrite (Permutation_length (createDeck_Permutation _ _)),
      orderedDeck_length. unfold numDecksFor. lia. }
  destruct (lookup_lt_is_Some_2 (reverse deck) 0) as [c Hc].
  { by rewrite length_reverse. }
  exists c. split; [done|].
  assert (∀ s, s < n →
            ∃ q, deal_loop s 0 (reverse deck) ps0 !! s = Some q ∧
                 hand q !! 0 = Some c) as Hfirst.
  { intros s Hs.
    destruct (lookup_lt_is_Some_2 ps0 s) as [q0 Hq0]; [lia|].
    eexists. split; [by apply deal_loop_lookup|]. simpl.
    apply list_lookup_fmap_Some in Hq0 as (q & -> & _). simpl.
    rewrite Hlen0.
    pose proof (dealt_to_lookup n s (reverse deck) 0 c ltac:(lia) Hc) as Hl.
    rewrite Nat.add_0_r, Nat.Div0.div_0_l, (Nat.mod_small s n) in Hl by done.
    done. }
  split.
  - intros h dealer Hf. apply find_findIndex in Hf as Hfi.
    assert ((h + 1) mod n < n) as Hs by (apply Nat.mod_upper_bound; lia).
    assert (Z.to_nat ((Z.of_nat h + 1) `rem` Z.of_nat n) = (h + 1) mod n) as Ht.
    { rewrite Z.rem_mod_nonneg by lia.
      replace (Z.of_nat h + 1)%Z with (Z.of_nat (h + 1)) by lia.
      by rewrite <-Nat2Z.inj_mod, Nat2Z.id. }
    rewrite Hfi, Ht. split; [done|].
    unfold dealHands. rewrite Hfi0, Hfi, Hd, Hlen0.
    replace (Z.to_nat (0 `max` Z.of_nat h)) with h by lia.
    by apply Hfirst.
  - intros Hf.
    assert (findIndex (λ p, pid p = hostId g) (players g) = (-1)%Z) as Hfi.
    { unfold findIndex. unfold find in Hf. by rewrite Hf. }
    rewrite Hfi. split.
    { rewrite Z.rem_mod_nonneg by lia. by rewrite Z.mod_0_l by lia. }
    unfold dealHands. rewrite Hfi0, Hfi, Hd, Hlen0. simpl.
    apply Hfirst. apply Nat.mod_upper_bound. lia.
Qed.

Lemma game_start_first_turn_witness :
  ∃ alice, currentTurnIndex started2 = 1 ∧
           players started2 !! 1 = Some alice ∧
           hand alice !! 0 = Some AS.
Proof.
  assert (game_start zeros lobby2 "pB" = Some started2) as H
    by (vm_compute; reflexivity).
  destruct (game_start_first_turn zeros lobby2 "pB" started2 H)
    as (_ & _ & _ & _ & _ & _ & _ & c & Hc & Hhost & _).
  destruct (Hhost 0 (mkPlayer "pB" "Bob" "kB" [] true)) as (Ht & first & Hf & Hh);
    [vm_compute; reflexivity|].
  assert (c = AS) as -> by (vm_compute in Hc; by injection Hc as <-).
  assert (currentTurnIndex started2 = 1) as Ht1 by (vm_compute; reflexivity).
  rewrite Ht1 in Hf. exists first. by split_and!.
Defined.

(** ** Joining, kicking, leaving *)

Lemma filter_all {A} (P : A → Prop) `{∀ x, Decision (P x)} (l : list A) :
  (∀ x, x ∈ l → P x) → filter P l = l.
Proof.
  induction l as [|x l IH]; intros Hall; [done|].
  rewrite list.filter_cons_True by (apply Hall; by left).
  f_equal. apply IH. intros y Hy. apply Hall. by right.
Qed.

(** X13.  A join is accepted exactly when the session is not started and
    has fewer than ten players.  The host's kick of the player who just
    joined under a new identifier undoes the join: the session is again
    what it was. *)
Theorem session_join_kick_round_trip (g : GameState)
    (playerId uname socket : string) :
  (is_Some (session_join g playerId uname socket) ↔
   started g = false ∧ length (players g) < 10) ∧
  ∀ g1, session_join g playerId uname socket = Some g1 →
        playerId ∉ pid <$> players g →
        session_kick g1 playerId (hostId g) = Some g.
Proof.
  split.
  - split.
    + intros [g1 (? & ? & _)%session_join_Some]. done.
    + intros [Hst Hlen]. eexists. apply session_join_Some. by split_and!.
  - intros g1 (Hst & Hlen & ->)%session_join_Some Hfresh.
    apply session_kick_Some. simpl. split_and!; try done.
    rewrite list.filter_app, list.filter_cons_False, list.filter_nil, app_nil_r
      by (simpl; intros Hne; by apply Hne).
    rewrite filter_all; [by destruct g|].
    intros p Hp <-. apply Hfresh. by apply list_elem_of_fmap_2.
Qed.

(** X14.  A disconnect is a no-op for a session in which no player is
    bound to the socket.  Otherwise it removes the first player bound to
    the socket and nobody else; the others keep their order, hands and
    identifiers.  If the leaver was the host and somebody remains, the
    first remaining player becomes the host; in every other case [hostId]
    stays.  Turn pointer, rank, pile, recorded play, deadline and
    eligibility are not touched, and a session emptied of its players is
    kept. *)
Theorem disconnect_game_effect (g : GameState) (socket : string) :
  (disconnect_game g socket = None ↔
   ∀ p, p ∈ players g → socketId p ≠ socket) ∧
  ∀ g', disconnect_game g socket = Some g' →
    ∃ idx leaver,
      find (λ p, socketId p = socket) (players g) = Some (idx, leaver) ∧
      set_isHost false <$> players g' =
        set_isHost false <$> delete idx (players g) ∧
      (∀ p0, pid leaver = hostId g → head (players g') = Some p0 →
             hostId g' = pid p0 ∧ isHost p0 = true) ∧
      (pid leaver ≠ hostId g ∨ delete idx (players g) = [] →
         hostId g' = hostId g ∧ players g' = delete idx (players g)) ∧
      currentTurnIndex g' = currentTurnIndex g ∧
      currentRequiredRank g' = currentRequiredRank g ∧
      pileFaceDown g' = pileFaceDown g ∧ lastPlay g' = lastPlay g ∧
      bsWindowUntil g' = bsWindowUntil g ∧
      peanutButterEligiblePlayerId g' = peanutButterEligiblePlayerId g ∧
      started g' = started g.
Proof.
  split.
  - unfold disconnect_game, find.
    destruct (list_find _ (players g)) as [[idx leaver]|] eqn:Hf; simpl.
    + split.
      * destruct (delete idx (players g)); [done|]. by case_bool_decide.
      * intros Hno. apply list_find_Some in Hf as (Hi & Hs & _).
        destruct (Hno leaver); [by eapply list_elem_of_lookup_2|done].
    + split; [|done]. intros _ p Hp Hs.
      apply list_find_None in Hf.
      by apply (proj1 (list.Forall_forall _ _) Hf p).
  - intros g' (idx & leaver & Hf & ->)%disconnect_game_Some.
    exists idx, leaver. split; [done|].
    destruct (delete idx (players g)) as [|p0 rest]; [by split_and!; auto|].
    case_bool_decide as Hwas; simpl.
    + split_and!; try done.
      * intros q _ [= <-]. done.
      * intros [?|?]; done.
    + split_and!; done.
Qed.

Lemma session_join_kick_round_trip_witness :
  session_join lobby1 "pA" "Alice" "kA" = Some lobby2 ∧
  session_kick lobby2 "pA" (hostId lobby1) = Some lobby1.
Proof.
  assert (session_join lobby1 "pA" "Alice" "kA" = Some lobby2) as Hj
    by reflexivity.
  split; [exact Hj|].
  apply (proj2 (session_join_kick_round_trip lobby1 "pA" "Alice" "kA") lobby2 Hj).
  intros Hin%list_elem_of_In. simpl in Hin. intuition discriminate.
Defined.

Lemma disconnect_game_effect_witness :
  ∃ g', disconnect_game started2 "kB" = Some g' ∧
        hostId g' = "pA" ∧ currentTurnIndex g' = currentTurnIndex started2.
Proof.
  destruct (disconnect_game started2 "kB") as [g'|] eqn:H;
    [|by vm_compute in H].
  destruct (proj2 (disconnect_game_effect started2 "kB") g' H)
    as (idx & leaver & Hf & _ & Hhost & _ & Ht & _).
  exists g'. split; [done|]. split; [|exact Ht].
  vm_compute in H. by injection H as <-.
Defined.

(** ** The registry *)

(** X16.  A disconnect reaches every session of the registry: each one
    loses its first player bound to the socket, if it has one.  No session
    is ever removed, not even one left without players. *)
Theorem on_disconnect_every_session (games : gmap string GameState)
    (socket sessionId : string) :
  dom (on_disconnect games socket) = dom games ∧
  on_disconnect games socket !! sessionId =
    (λ g, default g (disconnect_game g socket)) <$> games !! sessionId ∧
  ∀ g g', games !! sessionId = Some g →
          on_disconnect games socket !! sessionId = Some g' →
          length (players g') =
            if decide (socket ∈ socketId <$> players g)
            then length (players g) - 1 else length (players g).
Proof.
  unfold on_disconnect. split_and!.
  - apply dom_fmap_L.
  - apply lookup_fmap.
  - intros g g' Hg. rewrite lookup_fmap, Hg. simpl. intros [= <-].
    destruct (disconnect_game g socket) as [g1|] eqn:Hd; simpl.
    + apply disconnect_game_Some in Hd as (idx & leaver & Hf & ->).
      apply find_Some_lookup in Hf as [Hl Hs].
      rewrite decide_True.
      2:{ rewrite <-Hs. apply list_elem_of_fmap_2.
          by eapply list_elem_of_lookup_2. }
      pose proof (length_delete (players g) idx ltac:(eauto)) as Hlen.
      destruct (delete idx (players g)) as [|p0 rest]; [done|].
      by case_bool_decide.
    + rewrite decide_False; [done|].
      intros (p & Hs & Hp)%list_elem_of_fmap.
      unfold disconnect_game, find in Hd.
      destruct (list_find _ (players g)) as [[idx leaver]|] eqn:Hf.
      * simpl in Hd. destruct (delete idx (players g)); [done|].
        by case_bool_decide.
      * apply list_find_None in Hf.
        by apply (proj1 (list.Forall_forall _ _) Hf p).
Qed.

(** ** Deadline and eligibility after a play *)

Lemma find_elem {A} (P : A → Prop) `{∀ x, Decision (P x)} (l : list A) x :
  x ∈ l → P x → is_Some (find P l).
Proof. apply list_find_elem_of. Qed.

(** X17.  After a play accepted at time [now] (other than -5000, where
    the stamped deadline would be zero and count as unset), a challenge by
    any player of the session, the one who played included, is accepted at
    every time up to and including [now + 5000] and rejected at every
    later time. *)
Theorem challenge_deadline_boundary (g : GameState) (by_ : string)
    (cards : list Card) (claimed : CardRank) (now : Z) (g1 : GameState)
    (challenger : string) :
  game_play g by_ cards claimed now = Some g1 →
  now ≠ (-5000)%Z →
  challenger ∈ pid <$> players g1 →
  ∀ now', is_Some (game_bs g1 challenger now') ↔ (now' ≤ now + 5000)%Z.
Proof.
  intros Hplay Hnow Hch now'.
  pose proof (handle_ident g (EvPlay by_ cards claimed now) g1 Hplay) as Hid.
  simpl in Hid.
  apply game_play_Some in Hplay
    as (Hst & current & k & player & _ & _ & Hk & _ & _ & _ & ->).
  apply find_Some_lookup in Hk as [Hk _]. simpl in *.
  split.
  - intros [g2 (_ & lp & deadline & ? & ? & ? & ? & _ & Hd & _ & Hle & _)
              %game_bs_Some].
    simpl in Hd. by injection Hd as <-.
  - intros Hle.
    set (pile := (remove_cards cards (hand player) (pileFaceDown g)).2).
    set (ps := <[k:=set_hand (remove_cards cards (hand player) (pileFaceDown g)).1
                      player]> (players g)) in *.
    destruct (find (λ p, name p = name player) ps) as [[i lastPlayer]|] eqn:Hi.
    2:{ exfalso. eapply is_Some_None. rewrite <-Hi.
        apply (find_elem _ _ (set_hand (remove_cards cards (hand player)
                                          (pileFaceDown g)).1 player)); [|done].
        eapply list_elem_of_lookup_2. apply list_lookup_insert_eq.
        by eapply lookup_lt_Some. }
    apply list_elem_of_fmap in Hch as (c & -> & Hc).
    destruct (find (λ p, pid p = pid c) ps) as [[j caller]|] eqn:Hj.
    2:{ exfalso. eapply is_Some_None. rewrite <-Hj. by apply (find_elem _ _ c). }
    eexists. apply game_bs_Some. simpl. split; [done|].
    eexists _, _, i, lastPlayer, j, caller. split_and!; try done. lia.
Qed.

Lemma challenge_deadline_boundary_witness :
  is_Some (game_bs afterP1 "pB" 6000) ∧ ¬ is_Some (game_bs afterP1 "pB" 6001).
Proof.
  assert (∀ now', is_Some (game_bs afterP1 "pB" now') ↔ (now' ≤ 1000 + 5000)%Z)
    as H.
  { apply (challenge_deadline_boundary started2 "pA" [AS] R5 1000 afterP1 "pB").
    - vm_compute. reflexivity.
    - lia.
    - apply list_elem_of_In. vm_compute. auto. }
  split; [apply H; lia|]. intros Hs. apply H in Hs. lia.
Defined.

(** X18.  After two plays in a row, by [a] and then by [b], a
    counter-challenge is accepted exactly when it comes from [b] and [b] is
    not [a]: the player of the later play is the only one who can invoke
    it, and not after playing twice in a row. *)
Theorem counter_after_two_plays (g : GameState) (a b : string)
    (cardsA cardsB : list Card) (rA rB : CardRank) (t1 t2 : Z)
    (g1 g2 : GameState) (x : string) :
  game_play g a cardsA rA t1 = Some g1 →
  game_play g1 b cardsB rB t2 = Some g2 →
  a ≠ "" → b ≠ "" →
  is_Some (game_peanutButter g2 x) ↔ x = b ∧ a ≠ b.
Proof.
  intros Ha%game_play_eligible Hb Hane Hbne.
  apply game_play_Some in Hb
    as (Hst & current & k & player & _ & _ & Hk & _ & _ & _ & ->).
  apply find_Some_lookup in Hk as [Hk Hp]. rewrite Ha, Hp.
  split.
  - intros [g3 (_ & _ & He & Hn & _)%game_peanutButter_Some]. simpl in *.
    injection He as <-. split; [done|].
    injection Hn as Hn. apply bool_decide_eq_true in Hn as [_ Hn]. congruence.
  - intros [-> Hab].
    set (ps := <[k:=set_hand (remove_cards cardsB (hand player)
                                (pileFaceDown g1)).1 player]> (players g1)).
    destruct (find (λ p, name p = name player) ps) as [[i lastPlayer]|] eqn:Hi.
    2:{ exfalso. eapply is_Some_None. rewrite <-Hi.
        apply (find_elem _ _ (set_hand (remove_cards cardsB (hand player)
                                          (pileFaceDown g1)).1 player)); [|done].
        eapply list_elem_of_lookup_2. apply list_lookup_insert_eq.
        by eapply lookup_lt_Some. }
    eexists. apply game_peanutButter_Some. simpl. split_and!; try done.
    + f_equal. apply bool_decide_eq_true. split; [done|congruence].
    + by eexists _, i, lastPlayer.
Qed.

Lemma counter_after_two_plays_witness :
  is_Some (game_peanutButter afterP2 "pB") ∧
  ¬ is_Some (game_peanutButter afterP2 "pA").
Proof.
  assert (∀ x, is_Some (game_peanutButter afterP2 x) ↔ x = "pB" ∧ "pA" ≠ "pB")
    as H.
  { intros x.
    apply (counter_after_two_plays started2 "pA" "pB" [AS] [KC] R5 R6 1000 9000
             afterP1 afterP2 x);
      [vm_compute; reflexivity|vm_compute; reflexivity|discriminate
      |discriminate]. }
  split; [by apply H|]. intros [Heq _]%H. discriminate Heq.
Defined.

(** ** What the clients are told *)

(** X19.  The public projection tells nothing about which cards are
    where: two sessions that differ only in the contents of hands and pile,
    not in their sizes (nor in sockets, [hostId] or eligibility), have the
    same projection. *)
Theorem visibleState_hides_cards (g1 g2 : GameState) :
  gid g1 = gid g2 →
  started g1 = started g2 →
  currentTurnIndex g1 = currentTurnIndex g2 →
  currentRequiredRank g1 = currentRequiredRank g2 →
  lastPlay g1 = lastPlay g2 →
  bsWindowUntil g1 = bsWindowUntil g2 →
  (λ p, (pid p, name p, isHost p, length (hand p))) <$> players g1 =
  (λ p, (pid p, name p, isHost p, length (hand p))) <$> players g2 →
  length (pileFaceDown g1) = length (pileFaceDown g2) →
  visibleState g1 = visibleState g2.
Proof.
  intros Hgid Hst Ht Hr Hlp Hw Hps Hpile. unfold visibleState.
  rewrite Hgid, Hst, Ht, Hr, Hlp, Hw, Hpile.
  assert ((λ p, mkVisiblePlayer (pid p) (name p) (isHost p) (length (hand p)))
            <$> players g1 =
          (λ p, mkVisiblePlayer (pid p) (name p) (isHost p) (length (hand p)))
            <$> players g2) as ->.
  { apply (f_equal (fmap (λ t : string * string * bool * nat,
                            mkVisiblePlayer t.1.1.1 t.1.1.2 t.1.2 t.2))) in Hps.
    by rewrite <-!list_fmap_compose in Hps. }
  assert (pid <$> players g1 !! currentTurnIndex g2 =
          pid <$> players g2 !! currentTurnIndex g2) as ->; [|done].
  apply (f_equal (fmap (λ t : string * string * bool * nat, t.1.1.1))) in Hps.
  rewrite <-!list_fmap_compose in Hps.
  apply (f_equal (λ l, l !! currentTurnIndex g2)) in Hps.
  by rewrite !list_lookup_fmap in Hps.
Qed.

Lemma visibleState_hides_cards_witness :
  visibleState afterP1 =
  visibleState
    (mkGame "s1"
       [mkPlayer "pB" "Bob" "" (replicate 26 KH) true;
        mkPlayer "pA" "Alice" "" (replicate 25 KC) false]
       "" true 0 R2 [AD] (Some (mkPlay "Alice" 1 R5)) (Some 6000%Z) None None).
Proof.
  apply visibleState_hides_cards; vm_compute; reflexivity.
Defined.

(** X20.  The public projection and the private hand messages agree:
    there is one message per player, in seat order, addressed to the
    player's socket and carrying the player's identifier, and the hand it
    carries has the size the projection reports for that player.  The
    cards reported, pile included, are the cards in play, and the player
    whose turn is announced is the one at the turn pointer, or nobody when
    the pointer is out of range. *)
Theorem projection_consistent (g : GameState) :
  (λ m, (m.2.1, length m.2.2)) <$> pushHandsToPlayers g =
    (λ v, (v_id v, cardsLeft v)) <$> v_players (visibleState g) ∧
  fst <$> pushHandsToPlayers g = socketId <$> players g ∧
  sum_list (cardsLeft <$> v_players (visibleState g)) + pileCount (visibleState g)
    = totalCards g ∧
  (∀ p, players g !! currentTurnIndex g = Some p →
        currentTurnPlayerId (visibleState g) = Some (pid p)) ∧
  (length (players g) ≤ currentTurnIndex g →
   currentTurnPlayerId (visibleState g) = None).
Proof.
  unfold pushHandsToPlayers, visibleState, totalCards, handTotal. simpl.
  split_and!.
  - rewrite <-!list_fmap_compose. by apply list_fmap_ext.
  - rewrite <-list_fmap_compose. by apply list_fmap_ext.
  - f_equal. rewrite <-list_fmap_compose.
    induction (players g) as [|p ps IH]; simpl; [done|]. f_equal. exact IH.
  - intros p Hp. by rewrite Hp.
  - intros Hge. by rewrite lookup_ge_None_2.
Qed.

(** ** The client's selection and the server's checks *)

(** X21.  The client and the server compute the same play limit for every
    number of players, none included. *)
Theorem client_server_limit (ps : list PlayerState) :
  clientMaxSelectable (length ps) = getMaxSelectable ps.
Proof.
  unfold clientMaxSelectable, getMaxSelectable, numDecksFor, ceilDiv.
  pose proof (Nat.div_mod_eq (length ps) 5) as E1.
  pose proof (Nat.mod_upper_bound (length ps) 5 ltac:(lia)) as B1.
  pose proof (Nat.div_mod_eq (length ps + 5 - 1) 5) as E2.
  pose proof (Nat.mod_upper_bound (length ps + 5 - 1) 5 ltac:(lia)) as B2.
  repeat case_decide; lia.
Qed.

(** X22.  Clicking cards keeps the selection free of repetitions and
    within the limit, from the empty selection on; clicking a card that is
    not selected, while there is room, and clicking it again gives back the
    selection one had. *)
Theorem onToggle_selection {A} `{EqDecision A} (maxSelectable : nat)
    (prev : list A) (c : A) :
  NoDup prev →
  length prev ≤ maxSelectable →
  NoDup (onToggle maxSelectable prev c) ∧
  length (onToggle maxSelectable prev c) ≤ maxSelectable ∧
  (c ∉ prev → length prev < maxSelectable →
   onToggle maxSelectable (onToggle maxSelectable prev c) c = prev).
Proof.
  intros Hnd Hlen. unfold onToggle. split_and!.
  - repeat case_decide; try done.
    + by apply list.NoDup_filter.
    + apply list.NoDup_app. split_and!; [done| |apply NoDup_singleton].
      by intros x Hx ->%list_elem_of_singleton.
  - repeat case_decide; try done.
    + pose proof (length_filter (λ x, x ≠ c) prev). lia.
    + rewrite length_app. simpl. lia.
  - intros Hc Hroom.
    rewrite (decide_False (P := c ∈ prev)), (decide_True (P := length prev < _))
      by done.
    rewrite decide_True by (apply elem_of_app; right; by left).
    rewrite list.filter_app, list.filter_cons_False, list.filter_nil, app_nil_r
      by (intros Hne; by apply Hne).
    apply filter_all. by intros x Hx ->.
Qed.

Lemma onToggle_selection_witness :
  NoDup (onToggle 4 ["AS"; "KC"] "2D") ∧
  length (onToggle 4 ["AS"; "KC"] "2D") ≤ 4 ∧
  onToggle 4 (onToggle 4 ["AS"; "KC"] "2D") "2D" = ["AS"; "KC"].
Proof.
  assert (NoDup ["AS"; "KC"]) as Hnd.
  { apply (bool_decide_unpack (NoDup ["AS"; "KC"])). vm_compute. exact I. }
  destruct (onToggle_selection 4 ["AS"; "KC"] "2D" Hnd) as (H1 & H2 & H3);
    [simpl; lia|].
  split; [exact H1|]. split; [exact H2|]. apply H3; [|simpl; lia].
  intros Hin%list_elem_of_In. simpl in Hin. intuition discriminate.
Defined.

(** X23.  An accepted play that names no card twice is covered: exactly
    the submitted cards leave the hand for the top of the pile, and the
    number of cards in play is kept. *)
Theorem game_play_distinct_cards (g : GameState) (by_ : string)
    (cards : list Card) (claimed : CardRank) (now : Z) (g' : GameState) :
  game_play g by_ cards claimed now = Some g' →
  NoDup cards →
  covered g (EvPlay by_ cards claimed now) ∧
  totalCards g' = totalCards g ∧
  ∃ k player player',
    find (λ p, pid p = by_) (players g) = Some (k, player) ∧
    players g' = <[k := player']> (players g) ∧
    hand player ≡ₚ cards ++ hand player' ∧
    pileFaceDown g' = pileFaceDown g ++ cards.
Proof.
  intros Hplay Hnd.
  assert (covered g (EvPlay by_ cards claimed now)) as Hcov.
  { apply game_play_Some in Hplay
      as (_ & current & k & player & _ & _ & Hk & _ & _ & Hown & _).
    intros k' player' Hk'. assert (player' = player) as -> by congruence.
    apply NoDup_submseteq; [done|].
    intros c Hc. apply indexOf_found.
    rewrite Forall_forall in Hown. by apply Hown, list_elem_of_In. }
  split; [done|]. split; [by eapply game_play_total|].
  destruct (game_play_moves_cards _ _ _ _ _ _ Hplay Hcov)
    as (k & player & player' & ? & ? & _ & ? & ?).
  by exists k, player, player'.
Qed.

Lemma game_play_distinct_cards_witness :
  game_play started2 "pA" [AS] R5 1000 = Some afterP1 ∧
  totalCards afterP1 = totalCards started2.
Proof.
  assert (game_play started2 "pA" [AS] R5 1000 = Some afterP1) as H
    by (vm_compute; reflexivity).
  split; [exact H|].
  destruct (game_play_distinct_cards started2 "pA" [AS] R5 1000 afterP1 H)
    as (_ & Ht & _); [|exact Ht].
  apply NoDup_singleton.
Defined.

(** X24.  A counter-challenge settles the pile but leaves the deadline as
    it was: the public projection goes on announcing the challenge window
    of the settled play, while every challenge is rejected. *)
Theorem counter_leaves_deadline (g : GameState) (by_ : string) (g' : GameState) :
  game_peanutButter g by_ = Some g' →
  v_bsWindowUntil (visibleState g') = bsWindowUntil g ∧
  pileCount (visibleState g') = 0 ∧
  v_lastPlay (visibleState g') = None ∧
  ∀ by' now, game_bs g' by' now = None.
Proof.
  intros (_ & _ & _ & _ & lp & i & lastPlayer & _ & _ & ->)%game_peanutButter_Some.
  split_and!; try done. intros by' now.
  destruct (game_bs _ by' now) as [g2|] eqn:E; [|done].
  apply game_bs_Some in E as (_ & ? & ? & ? & ? & ? & ? & Hlp & _). done.
Qed.

Lemma counter_leaves_deadline_witness :
  ∃ g', game_peanutButter afterP2 "pB" = Some g' ∧
        v_bsWindowUntil (visibleState g') = Some 14000%Z ∧
        game_bs g' "pA" 10000 = None.
Proof.
  destruct (game_peanutButter afterP2 "pB") as [g'|] eqn:H;
    [|by vm_compute in H].
  destruct (counter_leaves_deadline afterP2 "pB" g' H) as (Hw & _ & _ & Hno).
  exists g'. split; [done|]. split; [|apply Hno].
  rewrite Hw. vm_compute. reflexivity.
Defined.

(** ** The verdict of a challenge *)

(** X25.  A challenge that arrives by the deadline, from a player of the
    session, against a recorded play of at least one card whose [username]
    some player bears, is accepted and resolved on the last [count] cards
    of the pile: the play is truthful when all of them have the claimed
    rank.  The whole pile goes to the challenger when it is truthful, and
    otherwise to the first player of the list bearing the recorded name.
    Pile, recorded play, deadline and eligibility are cleared. *)
Theorem game_bs_resolution (g : GameState) (by_ : string) (now : Z)
    (lp : PlayRecord) (deadline : Z) (i j : nat) (lastPlayer caller : PlayerState) :
  started g = true →
  lastPlay g = Some lp →
  1 ≤ count lp →
  bsWindowUntil g = Some deadline → deadline ≠ 0%Z → (now ≤ deadline)%Z →
  find (λ p, name p = username lp) (players g) = Some (i, lastPlayer) →
  find (λ p, pid p = by_) (players g) = Some (j, caller) →
  let pile := pileFaceDown g in
  let inspected := drop (length pile - count lp) pile in
  let truthful := Forall (λ c, rank c = claimedRank lp) inspected in
  ∃ g', game_bs g by_ now = Some g' ∧
    (truthful → players g' = alter (push_hand pile) j (players g)) ∧
    (¬ truthful → players g' = alter (push_hand pile) i (players g)) ∧
    pileFaceDown g' = [] ∧
    lastPlay g' = None ∧
    bsWindowUntil g' = None ∧
    peanutButterEligiblePlayerId g' = None ∧
    hasNextPlayerPlayedAfterLiar g' = Some false.
Proof.
  intros Hst Hlp Hcount Hd Hnz Hle Hi Hj pile inspected truthful.
  eexists. split.
  { apply game_bs_Some. split; [done|].
    exists lp, deadline, i, lastPlayer, j, caller. by split_and!. }
  simpl.
  pose proof (liar_false_iff lp pile) as Hliar.
  rewrite slice_neg_last in Hliar by done.
  fold pile. split_and!; try done.
  - intros Ht. apply Hliar in Ht. by rewrite Ht.
  - intros Hnt. destruct (liar lp pile); [done|]. exfalso. by apply Hnt, Hliar.
Qed.

Lemma game_bs_resolution_witness :
  started afterP1 = true ∧
  lastPlay afterP1 = Some (mkPlay "Alice" 1 R5) ∧
  bsWindowUntil afterP1 = Some 6000%Z ∧
  fst <$> find (λ p, name p = "Alice") (players afterP1) = Some 1 ∧
  fst <$> find (λ p, pid p = "pB") (players afterP1) = Some 0 ∧
  ∃ g', game_bs afterP1 "pB" 2000 = Some g' ∧
        players g' = alter (push_hand [AS]) 1 (players afterP1) ∧
        pileFaceDown g' = [] ∧ lastPlay g' = None ∧ bsWindowUntil g' = None.
Proof.
  split; [reflexivity|]. split; [vm_compute; reflexivity|].
  split; [vm_compute; reflexivity|]. split; [vm_compute; reflexivity|].
  split; [vm_compute; reflexivity|].
  destruct (find (λ p, name p = "Alice") (players afterP1))
    as [[i lastPlayer]|] eqn:Hi; [|by vm_compute in Hi].
  destruct (find (λ p, pid p = "pB") (players afterP1))
    as [[j caller]|] eqn:Hj; [|by vm_compute in Hj].
  assert (i = 1) as -> by (vm_compute in Hi; congruence).
  destruct (game_bs_resolution afterP1 "pB" 2000 (mkPlay "Alice" 1 R5)
              6000 1 j lastPlayer caller)
    as (g' & Hbs & _ & Hliar & Hpile & Hlast & Hwin & _);
    [reflexivity|vm_compute; reflexivity|simpl; lia|vm_compute; reflexivity
    |lia|lia|exact Hi|exact Hj|].
  exists g'. split; [exact Hbs|]. split; [|by split_and!].
  rewrite Hliar; [vm_compute; reflexivity|].
  vm_compute. inversion 1 as [|?? Hr]. discriminate Hr.
Defined.
